(** * Access-control permission evaluator and permission cache

    A shallow embedding of the decision logic of the access-control plugin:

    - [PermissionManager.hasPermission], the front-end evaluator of
      [permissionManagerTypes.js];
    - [Sidebar.hasAccessToDatabase], the database visibility test of
      [SidebarWithWorkspace.vue];
    - [PermissionCache], the TTL + LRU cache class of the permission cache
      service;
    - [ConditionRules], the condition rule engine, which lives in the
      backend and is modelled from its specification.

    JavaScript values that the code only tests for truthiness or returns
    unchanged are kept as [jsval]; objects used as maps from ids are [gmap Z];
    the JS [Map] of the cache, whose iteration order is its insertion order,
    is an association list. *)

From Stdlib Require Import ZArith String Ascii DecimalString DecimalZ.
From Stdlib Require Import Sorted.
From stdpp Require Import base gmap strings list.

Local Open Scope Z_scope.
Local Open Scope string_scope.

(** ** JavaScript values *)

Module Js.

(** The values a permission snapshot can hold in a flag position. *)
Inductive jsval : Type :=
| JUndefined
| JNull
| JBool (b : bool)
| JNum (n : Z)
| JStr (s : string).

#[global] Instance jsval_eq_dec : EqDecision jsval.
Proof. solve_decision. Defined.

(** ToBoolean. *)
Definition truthy (v : jsval) : bool :=
  match v with
  | JUndefined | JNull => false
  | JBool b => b
  | JNum n => negb (Z.eqb n 0)
  | JStr s => negb (String.eqb s "")
  end.

(** [a || b] on values. *)
Definition or (a b : jsval) : jsval := if truthy a then a else b.

(** [v === 'literal']. *)
Definition is_str (v : jsval) (lit : string) : bool :=
  match v with
  | JStr s => String.eqb s lit
  | _ => false
  end.

(** An id read from an object: [None] is [undefined]; the number [0] is
    falsy. *)
Definition truthy_id (i : option Z) : bool :=
  match i with
  | Some n => negb (Z.eqb n 0)
  | None => false
  end.

(** [a || b] on ids. *)
Definition or_id (a b : option Z) : option Z := if truthy_id a then a else b.

(** [obj[id]] on an object whose keys are ids: the key [undefined] is not
    an id, so the lookup finds nothing. *)
Definition prop {A} (obj : gmap Z A) (i : option Z) : option A :=
  match i with
  | Some n => obj !! n
  | None => None
  end.

End Js.

(** ** The permission snapshot and the evaluator *)

Module PermissionManager.
Import Js.

(** [permissions.workspace_structure] *)
Record structure_permission := {
  can_create_table : jsval;
  can_delete_table : jsval;
  can_delete_database : jsval;
}.

(** One value of [permissions.database_collaborations]; its two flags are
    the properties [can_create_table] and [can_delete_table] of the
    collaboration object. *)
Record collaboration := {
  accessible_tables : option (list Z);
  collab_can_create_table : jsval;
  collab_can_delete_table : jsval;
}.

(** One value of [permissions.table_permissions]. *)
Record table_permission := {
  permission_level : jsval;
  can_create_field : jsval;
  can_delete_field : jsval;
}.

(** The object the backend returns for the [access_control] manager.
    A field that is [None] is absent ([undefined]) or [null]. *)
Record permissions := {
  is_admin : jsval;
  denied_operations : option (list string);
  workspace_structure : option structure_permission;
  database_collaborations : option (gmap Z collaboration);
  table_permissions : option (gmap Z table_permission);
  field_permissions : option (gmap Z jsval);
}.

(** The context object (an application, a table, a field, ...). *)
Record context := {
  id : option Z;
  database_id : option Z;
  table_id : option Z;
  field_id : option Z;
}.

(** [denied_operations && denied_operations.includes(operation)] *)
Definition is_denied (p : permissions) (operation : string) : bool :=
  match denied_operations p with
  | Some ops => existsb (String.eqb operation) ops
  | None => false
  end.

(** [permissions.workspace_structure?.flag] *)
Definition ws_flag (p : permissions) (flag : structure_permission -> jsval)
  : jsval :=
  match workspace_structure p with
  | Some ws => flag ws
  | None => JUndefined
  end.

(** Each layer either returns ([Some v]) or falls through ([None]). *)

Definition workspace_layer (p : permissions) (operation : string)
  : option jsval :=
  match workspace_structure p with
  | Some ws =>
      if String.eqb operation "application.create_application"
         || String.eqb operation "workspace.create_application"
      then Some (JBool false)
      else if String.eqb operation "application.delete"
      then Some (can_delete_database ws)
      else None
  | None => None
  end.

Definition database_layer (p : permissions) (operation : string)
    (ctx : option context) : option jsval :=
  match ctx, database_collaborations p with
  | Some c, Some collabs =>
      let databaseId := or_id (database_id c) (id c) in
      match prop collabs databaseId with
      | Some collab =>
          if String.eqb operation "database.create_table" then
            if truthy (ws_flag p can_create_table) then Some (JBool true)
            else Some (collab_can_create_table collab)
          else if String.eqb operation "database.table.delete" then
            if truthy (ws_flag p can_delete_table) then Some (JBool true)
            else Some (collab_can_delete_table collab)
          else None
      | None =>
          if String.eqb operation "database.create_table" then
            Some (or (ws_flag p can_create_table) (JBool false))
          else if String.eqb operation "database.table.delete" then
            Some (or (ws_flag p can_delete_table) (JBool false))
          else None
      end
  | _, _ => None
  end.

Definition table_layer (p : permissions) (operation : string)
    (ctx : option context) : option jsval :=
  match ctx, table_permissions p with
  | Some c, Some perms =>
      let tableId := or_id (table_id c) (id c) in
      match prop perms tableId with
      | Some tablePerm =>
          if String.eqb operation "database.table.field.create" then
            Some (can_create_field tablePerm)
          else if String.eqb operation "database.table.field.delete" then
            Some (can_delete_field tablePerm)
          else if (String.eqb operation "database.table.update"
                   || String.eqb operation "database.table.row.create"
                   || String.eqb operation "database.table.row.update")
                  && is_str (permission_level tablePerm) "read_only"
          then Some (JBool false)
          else None
      | None => None
      end
  | _, _ => None
  end.

Definition field_layer (p : permissions) (operation : string)
    (ctx : option context) : option jsval :=
  match ctx, field_permissions p with
  | Some c, Some perms =>
      let fieldId := or_id (field_id c) (id c) in
      match prop perms fieldId with
      | Some fieldPerm =>
          if truthy fieldPerm then
            if is_str fieldPerm "hidden"
               && String.eqb operation "database.table.field.read"
            then Some (JBool false)
            else if (is_str fieldPerm "read_only" || is_str fieldPerm "hidden")
                    && String.eqb operation "database.table.field.update"
            then Some (JBool false)
            else None
          else None
      | None => None
      end
  | _, _ => None
  end.

(** [hasPermission(permissions, operation, context, workspaceId)]:
    [JBool true] allows, [JBool false] denies, [JNull] leaves the decision
    to the other permission managers. *)
Definition hasPermission (perms : option permissions) (operation : string)
    (ctx : option context) (workspaceId : Z) : jsval :=
  match perms with
  | None => JNull
  | Some p =>
      if truthy (is_admin p) then JBool true
      else if is_denied p operation then JBool false
      else
        match workspace_layer p operation with
        | Some r => r
        | None =>
        match database_layer p operation ctx with
        | Some r => r
        | None =>
        match table_layer p operation ctx with
        | Some r => r
        | None =>
        match field_layer p operation ctx with
        | Some r => r
        | None => JNull
        end end end end
  end.

End PermissionManager.

(** ** Database visibility in the sidebar *)

Module Sidebar.
Import Js PermissionManager.

(** One element of [workspace._.permissions]: [p.name] and
    [p.permissions]. *)
Record manager_entry := {
  name : string;
  entry_permissions : option permissions;
}.

(** [this.selectedWorkspace]: [workspace._.permissionsLoaded] and
    [workspace._.permissions]. *)
Record workspace := {
  permissionsLoaded : bool;
  ws_permissions : option (list manager_entry);
}.

(** [permissions.find(p => p.name === 'access_control')] *)
Definition find_access_control (l : list manager_entry)
  : option manager_entry :=
  List.find (fun e => String.eqb (name e) "access_control") l.

(** [hasAccessToDatabase(database)], reading [this.selectedWorkspace]
    and [database.id]. *)
Definition hasAccessToDatabase (selectedWorkspace : option workspace)
    (databaseId : Z) : jsval :=
  match selectedWorkspace with
  | None => JBool true
  | Some w =>
      if negb (permissionsLoaded w) then JBool true
      else
        match ws_permissions w with
        | None | Some [] => JBool true
        | Some l =>
            match find_access_control l with
            | None => JBool true
            | Some e =>
                match entry_permissions e with
                | None => JBool true
                | Some perms =>
                    if truthy (is_admin perms) then JBool true
                    else
                      match database_collaborations perms with
                      | Some collabs =>
                          match collabs !! databaseId with
                          | Some collab =>
                              match accessible_tables collab with
                              | None => JUndefined
                              | Some tables =>
                                  JBool (Z.ltb 0 (Z.of_nat (length tables)))
                              end
                          | None => JBool false
                          end
                      | None => JBool false
                      end
                end
            end
        end
  end.

End Sidebar.

(** ** Sample snapshots *)

Module Snapshots.
Import Js PermissionManager Sidebar.

(** The snapshot [p] with its [database_collaborations] map left out. *)
Definition without_collaborations (p : permissions) : permissions :=
  {| is_admin := is_admin p;
     denied_operations := denied_operations p;
     workspace_structure := workspace_structure p;
     database_collaborations := None;
     table_permissions := table_permissions p;
     field_permissions := field_permissions p |}.

(** A non-admin snapshot with nothing configured. *)
Definition bare : permissions :=
  {| is_admin := JBool false;
     denied_operations := None;
     workspace_structure := None;
     database_collaborations := None;
     table_permissions := None;
     field_permissions := None |}.

Definition no_flags : structure_permission :=
  {| can_create_table := JBool false;
     can_delete_table := JBool false;
     can_delete_database := JBool false |}.

Definition denied_delete : permissions :=
  {| is_admin := JBool false;
     denied_operations := Some ["database.table.delete"];
     workspace_structure := None;
     database_collaborations := None;
     table_permissions := None;
     field_permissions := None |}.

Definition admin_denied_delete : permissions :=
  {| is_admin := JBool true;
     denied_operations := Some ["database.table.delete"];
     workspace_structure := None;
     database_collaborations := None;
     table_permissions := None;
     field_permissions := None |}.

Definition all_flags : structure_permission :=
  {| can_create_table := JBool true;
     can_delete_table := JBool true;
     can_delete_database := JBool true |}.

Definition with_all_flags : permissions :=
  {| is_admin := JBool false;
     denied_operations := None;
     workspace_structure := Some all_flags;
     database_collaborations := None;
     table_permissions := None;
     field_permissions := None |}.

Definition may_create : collaboration :=
  {| accessible_tables := Some [5];
     collab_can_create_table := JBool true;
     collab_can_delete_table := JBool false |}.

Definition collaborator_of_1 : permissions :=
  {| is_admin := JBool false;
     denied_operations := Some [];
     workspace_structure := Some no_flags;
     database_collaborations := Some {[ 1 := may_create ]};
     table_permissions := None;
     field_permissions := None |}.

Definition database_1 : context :=
  {| id := Some 1; database_id := None; table_id := None;
     field_id := None |}.

Definition denied_create : permissions :=
  {| is_admin := JBool false;
     denied_operations := Some ["database.create_table"];
     workspace_structure := Some all_flags;
     database_collaborations := Some {[ 1 := may_create ]};
     table_permissions := None;
     field_permissions := None |}.

Definition editable_table : table_permission :=
  {| permission_level := JStr "editable";
     can_create_field := JBool true;
     can_delete_field := JBool true |}.

(** A non-admin user who has a table permission on table 5 and an empty
    collaboration map. *)
Definition outsider : permissions :=
  {| is_admin := JBool false;
     denied_operations := Some [];
     workspace_structure := Some no_flags;
     database_collaborations := Some ∅;
     table_permissions := Some {[ 5 := editable_table ]};
     field_permissions := None |}.

Definition outsider_workspace : workspace :=
  {| permissionsLoaded := true;
     ws_permissions :=
       Some [ {| name := "access_control";
                 entry_permissions := Some outsider |} ] |}.

(** Table 5 of database 1. *)
Definition table_5 : context :=
  {| id := Some 5; database_id := Some 1; table_id := Some 5;
     field_id := None |}.

End Snapshots.

(** ** Cache keys: template literal, [split(':')] and [parseInt] *)

Module Key.

(** The argument of [get], [set] and [delete]. The ids are the integers
    that the numbers of the caller stand for; see [safe_integer] for the
    range in which the model prints and reads them as the code does. A
    string is a sequence of code units below 256. *)
Record params := {
  workspaceId : Z;
  userId : Z;
  objectType : string;
  objectId : Z;
  operation : string;
}.

(** [Number.MAX_SAFE_INTEGER], that is 2^53 - 1. *)
Definition MAX_SAFE_INTEGER : Z := 9007199254740991.

Definition is_safe_integer (n : Z) : bool :=
  Z.leb (- MAX_SAFE_INTEGER) n && Z.leb n MAX_SAFE_INTEGER.

(** [Number.isSafeInteger(n)]: the integers that a number represents
    exactly and alone. *)
Definition safe_integer (n : Z) : Prop := is_safe_integer n = true.

(** [String(n)] for a safe integer [n]: its plain decimal numeral. Beyond
    the safe integers a number is printed from its rounded value, and as an
    exponent form from 1e21 on; the numeral below is not what the code
    prints there, and every statement that reads an id back from a key is
    made for safe integers only. *)
Definition string_of_Z (n : Z) : string :=
  NilZero.string_of_int (Z.to_int n).

(** [`${workspaceId}:${userId}:${objectType}:${objectId}:${operation}`] *)
Definition _generateKey (p : params) : string :=
  string_of_Z (workspaceId p) +:+ ":" +:+ string_of_Z (userId p) +:+ ":"
  +:+ objectType p +:+ ":" +:+ string_of_Z (objectId p) +:+ ":"
  +:+ operation p.

(** [s.split(':')]; the empty string splits into one empty part. *)
Fixpoint split_colon (s : string) : list string :=
  match s with
  | EmptyString => [EmptyString]
  | String c s' =>
      if Ascii.eqb c ":" then EmptyString :: split_colon s'
      else match split_colon s' with
           | part :: parts => String c part :: parts
           | [] => [String c EmptyString]
           end
  end.

(** White space that [parseInt] skips, among the code units below 256:
    tab, line feed, vertical tab, form feed, carriage return, space and
    no-break space. *)
Definition is_space (c : ascii) : bool :=
  let n := nat_of_ascii c in
  ((9 <=? n)%nat && (n <=? 13)%nat) || (n =? 32)%nat || (n =? 160)%nat.

Fixpoint skip_spaces (s : string) : string :=
  match s with
  | String c s' => if is_space c then skip_spaces s' else s
  | EmptyString => s
  end.

(** The longest prefix of decimal digits, as a numeral; [Nil] when the
    string does not start with a digit. *)
Fixpoint read_digits (s : string) : Decimal.uint :=
  match s with
  | String c s' =>
      match c with
      | "0" => Decimal.D0 (read_digits s')
      | "1" => Decimal.D1 (read_digits s')
      | "2" => Decimal.D2 (read_digits s')
      | "3" => Decimal.D3 (read_digits s')
      | "4" => Decimal.D4 (read_digits s')
      | "5" => Decimal.D5 (read_digits s')
      | "6" => Decimal.D6 (read_digits s')
      | "7" => Decimal.D7 (read_digits s')
      | "8" => Decimal.D8 (read_digits s')
      | "9" => Decimal.D9 (read_digits s')
      | _ => Decimal.Nil
      end%char
  | EmptyString => Decimal.Nil
  end.

Definition parse_decimal (s : string) : option Z :=
  match read_digits s with
  | Decimal.Nil => None
  | d => Some (Z.of_uint d)
  end.

Definition hex_digit (c : ascii) : option Z :=
  let n := Z.of_nat (nat_of_ascii c) in
  if (48 <=? n)%Z && (n <=? 57)%Z then Some (n - 48)%Z
  else if (65 <=? n)%Z && (n <=? 70)%Z then Some (n - 55)%Z
  else if (97 <=? n)%Z && (n <=? 102)%Z then Some (n - 87)%Z
  else None.

(** The longest prefix of hexadecimal digits; [acc] is [None] until a
    digit has been read. *)
Fixpoint read_hex (s : string) (acc : option Z) : option Z :=
  match s with
  | String c s' =>
      match hex_digit c with
      | Some d => read_hex s' (Some (16 * default 0 acc + d)%Z)
      | None => acc
      end
  | EmptyString => acc
  end.

(** The digits after the sign: hexadecimal after [0x] or [0X], decimal
    otherwise; [None] when there is no digit. *)
Definition parse_magnitude (s : string) : option Z :=
  match s with
  | String "0" (String "x" s') | String "0" (String "X" s') =>
      read_hex s' None
  | _ => parse_decimal s
  end.

(** The integer that the numeral at the start of [s] denotes, after white
    space and a sign; [None] when [s] starts with no numeral. *)
Definition parse_numeral (s : string) : option Z :=
  match skip_spaces s with
  | String "-" s' => Z.opp <$> parse_magnitude s'
  | String "+" s' => parse_magnitude s'
  | s' => parse_magnitude s'
  end.

(** A number as [parseInt] returns it: [NaN], a safe integer, or a number
    beyond the safe integers. [parseInt] rounds the integer that the
    numeral denotes to the nearest number; a safe integer is left as it
    is, and an integer beyond them is rounded to a number beyond them,
    which [Large] stands for without saying which one it is: it differs
    from every safe integer. *)
Inductive number :=
| NaN
| Int (n : Z)
| Large.

#[global] Instance number_eq_dec : EqDecision number.
Proof. solve_decision. Defined.

Definition to_number (v : option Z) : number :=
  match v with
  | None => NaN
  | Some n => if is_safe_integer n then Int n else Large
  end.

(** [parseInt(s)] without a radix. *)
Definition parseInt (s : string) : number := to_number (parse_numeral s).

(** The object [_parseKey] returns; a part that is missing is
    [undefined], and [parseInt(undefined)] is [NaN]. *)
Record parsed := {
  p_workspaceId : number;
  p_userId : number;
  p_objectType : option string;
  p_objectId : number;
  p_operation : option string;
}.

Definition _parseKey (key : string) : parsed :=
  let parts := split_colon key in
  {| p_workspaceId := from_option parseInt NaN (parts !! 0%nat);
     p_userId := from_option parseInt NaN (parts !! 1%nat);
     p_objectType := parts !! 2%nat;
     p_objectId := from_option parseInt NaN (parts !! 3%nat);
     p_operation := parts !! 4%nat |}.

Fixpoint colon_free (s : string) : bool :=
  match s with
  | EmptyString => true
  | String c s' => negb (Ascii.eqb c ":") && colon_free s'
  end.

(** The parameters the cache is used with: an object type is a word
    (workspace, database, table, field, row), it holds no colon. *)
Definition well_formed (p : params) : Prop :=
  colon_free (objectType p) = true.

(** Well-formed parameters whose ids are safe integers: the domain on
    which a key is printed, and read back, as the code does. *)
Definition safe_params (p : params) : Prop :=
  well_formed p
  ∧ safe_integer (workspaceId p)
  ∧ safe_integer (userId p)
  ∧ safe_integer (objectId p).

End Key.

(** ** The permission cache *)

Module PermissionCache.
Import Key.

Definition DEFAULT_CACHE_TTL : Z := 5 * 60 * 1000.
Definition DEFAULT_MAX_CACHE_SIZE : Z := 1000.

(** The constructor's [options]; [None] is a property left out. *)
Record options := {
  opt_ttl : option Z;
  opt_maxSize : option Z;
}.

(** [n || fallback] for a number that may be missing: [undefined] and
    [0] are falsy. *)
Definition or_default (n : option Z) (fallback : Z) : Z :=
  match n with
  | Some n => if Z.eqb n 0 then fallback else n
  | None => fallback
  end.

Section Cache.
Context {V : Type}.

Record entry := {
  value : V;
  timestamp : Z;
}.

(** [this.cache] is a JS [Map]: its entries in insertion order, one per
    key. [this.accessOrder] is an array of keys, oldest first. *)
Record t := {
  ttl : Z;
  maxSize : Z;
  cache : list (string * entry);
  accessOrder : list string;
}.

Definition constructor (o : options) : t :=
  {| ttl := or_default (opt_ttl o) DEFAULT_CACHE_TTL;
     maxSize := or_default (opt_maxSize o) DEFAULT_MAX_CACHE_SIZE;
     cache := [];
     accessOrder := [] |}.

(** *** [Map] operations *)

Definition keys (m : list (string * entry)) : list string := m.*1.

Fixpoint map_get (key : string) (m : list (string * entry))
  : option entry :=
  match m with
  | [] => None
  | (k, e) :: m' => if decide (k = key) then Some e else map_get key m'
  end.

(** [Map.set] keeps the position of a key that is already present. *)
Fixpoint map_set (key : string) (e : entry) (m : list (string * entry))
  : list (string * entry) :=
  match m with
  | [] => [(key, e)]
  | (k, e') :: m' =>
      if decide (k = key) then (k, e) :: m'
      else (k, e') :: map_set key e m'
  end.

Definition map_delete (key : string) (m : list (string * entry))
  : list (string * entry) :=
  filter (λ kv, kv.1 ≠ key) m.

(** [index = accessOrder.indexOf(key); if (index > -1) splice(index, 1)] *)
Fixpoint remove_key (key : string) (order : list string) : list string :=
  match order with
  | [] => []
  | k :: rest => if decide (k = key) then rest else k :: remove_key key rest
  end.

Definition _updateAccessOrder (key : string) (order : list string)
  : list string :=
  remove_key key order ++ [key].

(** [this.cache.delete(key)] followed by the removal of [key] from
    [this.accessOrder]: the body every deleting method shares. *)
Definition delete_key (key : string) (c : t) : t :=
  {| ttl := ttl c; maxSize := maxSize c;
     cache := map_delete key (cache c);
     accessOrder := remove_key key (accessOrder c) |}.

(** [now - entry.timestamp > this.ttl] *)
Definition is_expired (now : Z) (c : t) (e : entry) : bool :=
  Z.ltb (ttl c) (now - timestamp e).

(** The first loop of [_cleanup]: every entry met while iterating over
    the map is dropped when it has expired. *)
Definition cleanup_expired (now : Z) (c : t) : t :=
  fold_left
    (λ c kv, if is_expired now c kv.2 then delete_key kv.1 c else c)
    (cache c) c.

(** The second loop of [_cleanup]:
    [while (cache.size > maxSize && accessOrder.length > 0)]. *)
Fixpoint evict_lru (limit : Z) (m : list (string * entry))
    (order : list string) : list (string * entry) * list string :=
  match order with
  | [] => (m, [])
  | oldestKey :: rest =>
      if Z.ltb limit (Z.of_nat (length m))
      then evict_lru limit (map_delete oldestKey m) rest
      else (m, order)
  end.

Definition _cleanup (now : Z) (c : t) : t :=
  let c1 := cleanup_expired now c in
  let '(m, order) := evict_lru (maxSize c1) (cache c1) (accessOrder c1) in
  {| ttl := ttl c1; maxSize := maxSize c1; cache := m;
     accessOrder := order |}.

(** [get(params)] when [Date.now()] is [now]; [None] is [undefined]. *)
Definition get (now : Z) (p : params) (c : t) : option V * t :=
  let key := _generateKey p in
  match map_get key (cache c) with
  | None => (None, c)
  | Some e =>
      if is_expired now c e then (None, delete_key key c)
      else
        (Some (value e),
         {| ttl := ttl c; maxSize := maxSize c; cache := cache c;
            accessOrder := _updateAccessOrder key (accessOrder c) |})
  end.

(** [set(params, value)]; [Date.now()] is read in [_cleanup]
    ([cleanup_now]) and again for the new entry's timestamp ([now]). *)
Definition set (cleanup_now now : Z) (p : params) (v : V) (c : t) : t :=
  let key := _generateKey p in
  let c1 := _cleanup cleanup_now c in
  {| ttl := ttl c1; maxSize := maxSize c1;
     cache := map_set key {| value := v; timestamp := now |} (cache c1);
     accessOrder := _updateAccessOrder key (accessOrder c1) |}.

(** [delete(params)] *)
Definition delete (p : params) (c : t) : t :=
  delete_key (_generateKey p) c.

(** The body the six [invalidateBy...] methods share: collect the keys
    of the map that pass the test, then delete each of them. *)
Definition invalidate_where (test : string → bool) (c : t) : t :=
  let keysToDelete := List.filter test (keys (cache c)) in
  fold_left (λ c key, delete_key key c) keysToDelete c.

(** [parsed.objectType === type && parsed.objectId === id], for a safe
    integer [id]; [NaN] is equal to nothing, and a number beyond the safe
    integers to no safe integer. *)
Definition targets (type : string) (id : Z) (key : string) : bool :=
  let parsed := _parseKey key in
  bool_decide (p_objectType parsed = Some type)
  && bool_decide (p_objectId parsed = Int id).

(** The test of [invalidateByField] on one key:
    [parsed.objectType === 'field' && parsed.objectId === fieldId]. *)
Definition targets_field (fieldId : Z) (key : string) : bool :=
  targets "field" fieldId key.

Definition invalidateByWorkspace (workspaceId : Z) (c : t) : t :=
  invalidate_where
    (λ key, bool_decide (p_workspaceId (_parseKey key) = Int workspaceId))
    c.

Definition invalidateByDatabase (databaseId : Z) (c : t) : t :=
  invalidate_where (targets "database" databaseId) c.

Definition invalidateByTable (tableId : Z) (c : t) : t :=
  invalidate_where (targets "table" tableId) c.

Definition invalidateByField (fieldId : Z) (c : t) : t :=
  invalidate_where (targets_field fieldId) c.

(** The table id is not looked at. *)
Definition invalidateByRow (tableId rowId : Z) (c : t) : t :=
  invalidate_where (targets "row" rowId) c.

Definition invalidateByUser (userId : Z) (c : t) : t :=
  invalidate_where
    (λ key, bool_decide (p_userId (_parseKey key) = Int userId)) c.

Definition clear (c : t) : t :=
  {| ttl := ttl c; maxSize := maxSize c; cache := []; accessOrder := [] |}.

(** [getStats().size] *)
Definition size (c : t) : Z := Z.of_nat (length (cache c)).

(** *** Well-formed states and runs *)

(** What every state reached through the methods of the class
    satisfies: the map holds one entry per key, the access order holds
    every key of the map exactly once. *)
Definition cache_inv (c : t) : Prop :=
  NoDup (keys (cache c))
  ∧ NoDup (accessOrder c)
  ∧ ∀ k, k ∈ accessOrder c ↔ k ∈ keys (cache c).

(** The keys of the entries that have expired at [now]. *)
Definition expired_keys (now : Z) (c : t) (m : list (string * entry))
  : list string :=
  (List.filter (λ kv, is_expired now c kv.2) m).*1.

(** One call [set(params, value)] with the two readings of the clock it
    makes. *)
Record write := {
  w_params : params;
  w_value : V;
  w_cleanup_now : Z;
  w_now : Z;
}.

Definition set_all (ws : list write) (c : t) : t :=
  fold_left
    (λ c w, set (w_cleanup_now w) (w_now w) (w_params w) (w_value w) c)
    ws c.

Definition written_keys (ws : list write) : list string :=
  (λ w, _generateKey (w_params w)) <$> ws.

(** The states of a cache object: built by the constructor, then
    changed by its methods. *)
Inductive reachable : t → Prop :=
| reachable_new o : reachable (constructor o)
| reachable_get now p c : reachable c → reachable (get now p c).2
| reachable_set cleanup_now now p v c :
    reachable c → reachable (set cleanup_now now p v c)
| reachable_delete p c : reachable c → reachable (delete p c)
| reachable_invalidate test c :
    reachable c → reachable (invalidate_where test c)
| reachable_clear c : reachable c → reachable (clear c).

End Cache.

Arguments entry : clear implicits.
Arguments t : clear implicits.
Arguments write : clear implicits.

End PermissionCache.

(** ** Sample caches *)

Module CacheSamples.
Import Key PermissionCache.

Definition key_of (ty : string) (n : Z) : params :=
  {| workspaceId := 1; userId := 2; objectType := ty; objectId := n;
     operation := "read" |}.

(** A cache of capacity 2 with a TTL of 100 ms. *)
Definition small : t bool :=
  constructor {| opt_ttl := Some 100%Z; opt_maxSize := Some 2%Z |}.

(** Three calls of [set] at the times 1, 2 and 3. *)
Definition three_writes : list (write bool) :=
  [ {| w_params := key_of "table" 7; w_value := true;
       w_cleanup_now := 1; w_now := 1 |};
    {| w_params := key_of "field" 7; w_value := false;
       w_cleanup_now := 2; w_now := 2 |};
    {| w_params := key_of "field" 8; w_value := true;
       w_cleanup_now := 3; w_now := 3 |} ].

Definition sample : t bool := set_all three_writes small.

End CacheSamples.

(** ** The condition rule engine *)

Module ConditionRules.

(** Modelled from the spec: the data model of the condition rules (section
    3), for the engine that the backend implements and the sources do not
    contain. *)
Inductive permission_level := invisible | read_only | editable.

Inductive operator :=
| equals | not_equals | contains | greater_than | less_than.

Inductive logic_operator := logic_and | logic_or.

(** The value of a field on a row: a number, a text, or the user ids of a
    collaborator / link field. *)
Inductive cell :=
| CNum (n : Z)
| CStr (s : string)
| CUsers (ids : list Z).

#[global] Instance cell_eq_dec : EqDecision cell.
Proof. solve_decision. Defined.

(** [condition_type] together with the part of [condition_config] it
    uses. *)
Inductive condition :=
| creator
| field_match (field_id : Z) (op : operator) (value : cell)
| collaborator (field_id : Z).

(** Modelled from the spec: a [ConditionRule] record. *)
Record rule := {
  rule_id : Z;
  rule_condition : condition;
  rule_level : permission_level;
  priority : Z;
  rule_logic : logic_operator;
  is_active : bool;
}.

(** Modelled from the spec: what the engine reads of a row, its creator and
    its field values. *)
Record row := {
  created_by : option Z;
  fields : gmap Z cell;
}.

(** Whether [needle] occurs in [hay]. *)
Fixpoint substring_of (needle hay : string) : bool :=
  String.prefix needle hay
  || match hay with
     | String _ hay' => substring_of needle hay'
     | EmptyString => false
     end.

(** Modelled from the spec: the comparison of [field_match] (the backend
    that implements it is not part of the sources). The semantics follow
    the type of the field's value; values of different types never
    match an ordering or containment test. *)
Definition compare_cells (op : operator) (v w : cell) : bool :=
  match op with
  | equals => bool_decide (v = w)
  | not_equals => negb (bool_decide (v = w))
  | contains =>
      match v, w with
      | CStr s, CStr sub => substring_of sub s
      | _, _ => false
      end
  | greater_than =>
      match v, w with
      | CNum a, CNum b => Z.ltb b a
      | CStr a, CStr b => String.ltb b a
      | _, _ => false
      end
  | less_than =>
      match v, w with
      | CNum a, CNum b => Z.ltb a b
      | CStr a, CStr b => String.ltb a b
      | _, _ => false
      end
  end.

(** Modelled from the spec: whether one rule matches a row for the acting
    user (the backend that implements it is not part of the sources).
    A rule whose field is not on the row does not match. *)
Definition matches (r : rule) (rw : row) (user : Z) : bool :=
  match rule_condition r with
  | creator => bool_decide (created_by rw = Some user)
  | field_match fid op w =>
      match fields rw !! fid with
      | Some v => compare_cells op v w
      | None => false
      end
  | collaborator fid =>
      match fields rw !! fid with
      | Some (CUsers ids) => bool_decide (user ∈ ids)
      | _ => false
      end
  end.

(** Modelled from the spec: step 1 considers the rules that are active and
    match. *)
Definition applicable (rw : row) (user : Z) (r : rule) : bool :=
  is_active r && matches r rw user.

(** Modelled from the spec: the tie-break among rules of equal priority
    is left to the implementation; the lowest rule id wins here, as the
    spec suggests. *)
Definition beats (a b : rule) : bool :=
  Z.ltb (priority b) (priority a)
  || (Z.eqb (priority a) (priority b) && Z.leb (rule_id a) (rule_id b)).

(** The better of a rule and the best rule found so far. *)
Definition pick (r : rule) (best : option rule) : option rule :=
  match best with
  | None => Some r
  | Some b => if beats r b then Some r else Some b
  end.

(** Modelled from the spec: steps 1 and 2 of the matching algorithm (the
    backend that implements them is not part of the sources): keep the
    active rules that match, select the one of highest priority. *)
Definition select_rule (rules : list rule) (rw : row) (user : Z)
  : option rule :=
  foldr pick None (List.filter (applicable rw user) rules).

(** Modelled from the spec: the engine's decision, [None] when no rule
    matches ("no opinion"). *)
Definition evaluate (rules : list rule) (rw : row) (user : Z)
  : option permission_level :=
  rule_level <$> select_rule rules rw user.

(** Modelled from the spec: steps 3 and 4: an explicit per-user row
    permission wins over the rules; without either the row is editable. *)
Definition row_level (explicit : option permission_level)
    (rules : list rule) (rw : row) (user : Z) : permission_level :=
  match explicit with
  | Some l => l
  | None => default editable (evaluate rules rw user)
  end.

(** *** Sample rules *)

(** A row created by user 1 whose field 3 holds the text ["done"]. *)
Definition finished_row : row :=
  {| created_by := Some 1%Z; fields := {[ 3%Z := CStr "done" ]} |}.

Definition creator_rule : rule :=
  {| rule_id := 1; rule_condition := creator; rule_level := editable;
     priority := 5; rule_logic := logic_and; is_active := true |}.

Definition done_rule : rule :=
  {| rule_id := 2;
     rule_condition := field_match 3 equals (CStr "done");
     rule_level := read_only;
     priority := 10; rule_logic := logic_and; is_active := true |}.

End ConditionRules.

(** ** The list of applications in the sidebar *)

Module SidebarList.
Import Js PermissionManager Sidebar.

(** What the sidebar reads of an application: [id], [workspace.id],
    [type] and [order]. *)
Record application := {
  app_id : Z;
  app_workspace : Z;
  app_type : string;
  app_order : Z;
}.

(** The callback of [this.applications.filter(...)] in
    [groupedApplicationsForSelectedWorkspace], for the application type
    [type]; [isVisible] is the method of the application type in the
    registry, [selectedId] is [this.selectedWorkspace.id]. The array
    method keeps an element when the callback's result is truthy. *)
Definition is_listed (isVisible : application → bool) (selectedId : Z)
    (selectedWorkspace : workspace) (type : string) (a : application)
  : bool :=
  if negb (Z.eqb (app_workspace a) selectedId)
     || negb (String.eqb (app_type a) type)
     || negb (isVisible a)
  then false
  else if String.eqb (app_type a) "database"
  then truthy (hasAccessToDatabase (Some selectedWorkspace) (app_id a))
  else true.

(** [.sort((a, b) => a.order - b.order)]: the array sorted by [order], two
    elements of equal order staying in the order they had (the sort of an
    array is stable). *)
Fixpoint insert_by_order (a : application) (l : list application)
  : list application :=
  match l with
  | [] => [a]
  | b :: l' =>
      if Z.leb (app_order a) (app_order b) then a :: l
      else b :: insert_by_order a l'
  end.

(** [a.order - b.order <= 0]: [a] may come before [b]. *)
Definition by_order (a b : application) : Prop :=
  (app_order a <= app_order b)%Z.

Definition sort_by_order (l : list application) : list application :=
  foldr insert_by_order [] l.

(** The [applications] of one group of
    [groupedApplicationsForSelectedWorkspace]. *)
Definition group_applications (isVisible : application → bool)
    (selectedId : Z) (selectedWorkspace : workspace) (type : string)
    (applications : list application) : list application :=
  sort_by_order
    (List.filter (is_listed isVisible selectedId selectedWorkspace type)
       applications).

End SidebarList.

(** ** The store of plugin permissions *)

Module PluginPermissions.

(** The cache lifetime in milliseconds; 0 means that nothing is served
    from the cache. *)
Definition CACHE_TTL : Z := 0.

(** One value of [state.permissions[workspaceId]]. *)
Record cached := {
  level : string;
  timestamp : Z;
}.

(** The state of the module: [permissions] and [loading], objects keyed by
    the workspace id, then by the plugin type. *)
Record state := {
  permissions : gmap Z (gmap string cached);
  loading : gmap Z (gmap string bool);
}.

Definition initial : state := {| permissions := ∅; loading := ∅ |}.

(** The mutation [SET_PERMISSION] when [Date.now()] is [now]. *)
Definition SET_PERMISSION (now : Z) (st : state) (workspaceId : Z)
    (pluginType : string) (permissionLevel : string) : state :=
  {| permissions :=
       <[workspaceId :=
           <[pluginType := {| level := permissionLevel; timestamp := now |}]>
             (default ∅ (permissions st !! workspaceId))]>
         (permissions st);
     loading := loading st |}.


Definition CLEAR_WORKSPACE_PERMISSIONS (st : state) (workspaceId : Z)
  : state :=
  {| permissions := base.delete workspaceId (permissions st);
     loading := base.delete workspaceId (loading st) |}.

Definition CLEAR_ALL_PERMISSIONS (st : state) : state := initial.

(** The getter [getPermission]; [None] is [undefined]. *)
Definition getPermission (st : state) (workspaceId : Z)
    (pluginType : string) : option string :=
  level <$> (permissions st !! workspaceId ≫= λ m, m !! pluginType).

(** The getter [isLoading]:
    [state.loading[workspaceId]?.[pluginType] || false]. *)
Definition isLoading (st : state) (workspaceId : Z) (pluginType : string)
  : bool :=
  default false (loading st !! workspaceId ≫= λ m, m !! pluginType).




(** The three ways [fetchPermission] can go. *)
Inductive fetch_path :=
| from_cache (cached_level : string)
| wait_for_loading
| from_server.

(** The branch [fetchPermission] takes when [Date.now()] is [now]. *)
Definition fetchPermission (now : Z) (st : state) (workspaceId : Z)
    (pluginType : string) : fetch_path :=
  let next :=
    if isLoading st workspaceId pluginType then wait_for_loading
    else from_server in
  match permissions st !! workspaceId ≫= λ m, m !! pluginType with
  | Some c =>
      if Z.ltb (now - timestamp c) CACHE_TTL then from_cache (level c)
      else next
  | None => next
  end.


End PluginPermissions.

(** ** The field permission service and the cache *)

Module FieldPermissionsService.
Import Js Key PermissionCache.

Section Service.
Context {V : Type}.

(** The handlers of the cache service, on its one cache object. *)
Definition onFieldPermissionChanged (fieldId : Z) (c : t V) : t V :=
  invalidateByField fieldId c.

Definition onUserPermissionChanged (userId : Z) (c : t V) : t V :=
  invalidateByUser userId c.

(** What the service reads of a permission record of the server: its
    [id], and the id of its [user] when it has one. *)
Record permission_record := {
  record_id : Z;
  record_user : option Z;
}.

(** What [createPermission(fieldId, data)] does to the cache once its
    request has succeeded; [user_id] is [data.user_id]. A request that
    fails leaves the cache as it is. *)
Definition createPermission (fieldId : Z) (user_id : option Z) (c : t V)
  : t V :=
  let c1 := onFieldPermissionChanged fieldId c in
  match user_id with
  | Some u => if truthy_id user_id then onUserPermissionChanged u c1 else c1
  | None => c1
  end.

(** What [updatePermission(fieldId, permissionId, data)] does to the
    cache once its request has succeeded. *)
Definition updatePermission (fieldId : Z) (c : t V) : t V :=
  onFieldPermissionChanged fieldId c.

(** What [updatePermissionLevel(fieldId, userId, permissionLevel)] does to
    the cache once its requests have succeeded; [permissions] is the list
    the server returned for the field. *)
Definition updatePermissionLevel (permissions : list permission_record)
    (fieldId userId : Z) (c : t V) : t V :=
  match List.find (λ r, bool_decide (record_user r = Some userId))
          permissions with
  | Some existing => onUserPermissionChanged userId (updatePermission fieldId c)
  | None => createPermission fieldId (Some userId) c
  end.

End Service.

End FieldPermissionsService.

(** ** More sample data *)

Module MoreSamples.
Import Js PermissionManager Sidebar SidebarList Key PermissionCache.
Import CacheSamples.

Definition read_only_table : table_permission :=
  {| permission_level := JStr "read_only";
     can_create_field := JBool false;
     can_delete_field := JBool true |}.

Definition may_delete_database : structure_permission :=
  {| can_create_table := JBool true;
     can_delete_table := JBool false;
     can_delete_database := JBool true |}.

(** A non-admin user for whom table 5 is read-only, field 9 hidden and
    field 10 read-only; the snapshot has no collaboration map. *)
Definition restricted : permissions :=
  {| is_admin := JBool false;
     denied_operations := Some [];
     workspace_structure := Some may_delete_database;
     database_collaborations := None;
     table_permissions := Some {[ 5 := read_only_table ]};
     field_permissions :=
       Some {[ 9 := JStr "hidden"; 10 := JStr "read_only" ]} |}.

(** Row 77 of table 5. *)
Definition row_77 : context :=
  {| id := Some 77; database_id := None; table_id := Some 5;
     field_id := None |}.

(** Field 9, given as the context itself. *)
Definition field_9 : context :=
  {| id := Some 9; database_id := None; table_id := None;
     field_id := None |}.

Definition sees_table_5 : collaboration :=
  {| accessible_tables := Some [5];
     collab_can_create_table := JBool false;
     collab_can_delete_table := JBool false |}.

Definition sees_nothing : collaboration :=
  {| accessible_tables := Some [];
     collab_can_create_table := JBool false;
     collab_can_delete_table := JBool false |}.

(** A non-admin member of database 1 (one accessible table) and of
    database 2 (no accessible table). *)
Definition member : permissions :=
  {| is_admin := JBool false;
     denied_operations := None;
     workspace_structure := None;
     database_collaborations :=
       Some {[ 1 := sees_table_5; 2 := sees_nothing ]};
     table_permissions := None;
     field_permissions := None |}.

Definition member_entry : manager_entry :=
  {| name := "access_control"; entry_permissions := Some member |}.

Definition member_workspace : workspace :=
  {| permissionsLoaded := true;
     ws_permissions :=
       Some [ {| name := "core"; entry_permissions := None |};
              member_entry ] |}.

(** Three databases and one application of another type, in workspace
    40. *)
Definition some_applications : list application :=
  [ {| app_id := 3; app_workspace := 40; app_type := "database";
       app_order := 1 |};
    {| app_id := 1; app_workspace := 40; app_type := "database";
       app_order := 7 |};
    {| app_id := 2; app_workspace := 40; app_type := "database";
       app_order := 2 |};
    {| app_id := 8; app_workspace := 40; app_type := "builder";
       app_order := 3 |} ].

(** A cache of capacity 2 that holds one entry. *)
Definition one_entry : t bool := set 1 1 (key_of "table" 7) true small.

(** A cache built with a TTL of -1. *)
Definition switched_off : t bool :=
  constructor {| opt_ttl := Some (-1)%Z; opt_maxSize := None |}.

End MoreSamples.

(** * Properties of the evaluator *)

Module PermissionManagerFacts.
Import Js PermissionManager Sidebar Snapshots.

Lemma is_denied_In (p : permissions) (ops : list string) (op : string) :
  denied_operations p = Some ops → In op ops → is_denied p op = true.
Proof.
  intros Hops Hin. unfold is_denied. rewrite Hops.
  apply existsb_exists. exists op. split; [done | apply String.eqb_refl].
Qed.

Lemma eqb_lit_ne (op lit : string) : op ≠ lit → String.eqb op lit = false.
Proof. apply String.eqb_neq. Qed.

(** Unfold the evaluator on a non-admin snapshot whose deny-list does not
    name the operation. *)
Lemma hasPermission_layers (p : permissions) (op : string)
    (ctx : option context) (w : Z) :
  truthy (is_admin p) = false →
  is_denied p op = false →
  hasPermission (Some p) op ctx w =
    default JNull
      (workspace_layer p op
         ∪ database_layer p op ctx
         ∪ table_layer p op ctx
         ∪ field_layer p op ctx).
Proof.
  intros Hadmin Hdeny. unfold hasPermission. rewrite Hadmin, Hdeny.
  destruct (workspace_layer p op), (database_layer p op ctx),
    (table_layer p op ctx), (field_layer p op ctx); reflexivity.
Qed.

Lemma hasPermission_database (p : permissions) (op : string)
    (ctx : option context) (w : Z) (r : jsval) :
  truthy (is_admin p) = false →
  is_denied p op = false →
  workspace_layer p op = None →
  database_layer p op ctx = Some r →
  hasPermission (Some p) op ctx w = r.
Proof.
  intros Hadmin Hdeny Hws Hdb. unfold hasPermission.
  by rewrite Hadmin, Hdeny, Hws, Hdb.
Qed.

Lemma workspace_layer_table_ops (p : permissions) (op : string) :
  op = "database.create_table" ∨ op = "database.table.delete" →
  workspace_layer p op = None.
Proof.
  intros [-> | ->]; unfold workspace_layer; by destruct (workspace_structure p).
Qed.

Lemma database_layer_other_ops (p : permissions) (op : string)
    (ctx : option context) :
  op ≠ "database.create_table" → op ≠ "database.table.delete" →
  database_layer p op ctx = None.
Proof.
  intros H1%eqb_lit_ne H2%eqb_lit_ne. unfold database_layer.
  rewrite H1, H2.
  destruct ctx, (database_collaborations p); try done.
  by destruct (prop _ _).
Qed.

(** C2, as the code has it. Without a snapshot the evaluator gives no
    verdict: [hasPermission] returns [null] for every operation, context
    and workspace, which leaves the decision to the other permission
    managers. *)
Theorem hasPermission_no_snapshot_null (op : string)
    (ctx : option context) (w : Z) :
  hasPermission None op ctx w = JNull.
Proof. reflexivity. Qed.

(** C2, counterexample. Without a snapshot the result is not [true]. *)
Lemma hasPermission_no_snapshot_not_true :
  hasPermission None "database.create_table" None 1 = JNull
  ∧ hasPermission None "database.create_table" None 1 ≠ JBool true.
Proof. split; [reflexivity | discriminate]. Qed.

(** C4, as the code has it. For a snapshot whose [is_admin] is not truthy,
    an operation on the deny-list is refused whatever the context and
    the other layers say. *)
Theorem deny_list_non_admin (p : permissions) (ops : list string)
    (op : string) (ctx : option context) (w : Z) :
  truthy (is_admin p) = false →
  denied_operations p = Some ops →
  In op ops →
  hasPermission (Some p) op ctx w = JBool false.
Proof.
  intros Hadmin Hops Hin. unfold hasPermission.
  by rewrite Hadmin, (is_denied_In p ops op Hops Hin).
Qed.

(** [deny_list_non_admin] on a non-admin snapshot that denies the deletion
    of tables. *)
Lemma deny_list_non_admin_witness :
  hasPermission (Some denied_delete) "database.table.delete" None 1
  = JBool false.
Proof.
  apply (deny_list_non_admin denied_delete ["database.table.delete"]).
  - reflexivity.
  - reflexivity.
  - simpl. auto.
Defined.

(** C4, counterexample. The admin test comes first: an admin is allowed
    an operation that is on the deny-list. *)
Lemma deny_list_admin_allowed :
  denied_operations admin_denied_delete = Some ["database.table.delete"]
  ∧ In "database.table.delete" ["database.table.delete"]
  ∧ hasPermission (Some admin_denied_delete) "database.table.delete" None 1
    = JBool true
  ∧ hasPermission (Some admin_denied_delete) "database.table.delete" None 1
    ≠ JBool false.
Proof. repeat split; simpl; auto; discriminate. Qed.

(** C5, as the code has it. For a non-admin snapshot that carries a
    [workspace_structure] object, creating an application is refused in
    every context, whatever the flags are. *)
Theorem create_application_denied (p : permissions)
    (ws : structure_permission) (op : string) (ctx : option context)
    (w : Z) :
  truthy (is_admin p) = false →
  workspace_structure p = Some ws →
  op = "application.create_application"
  ∨ op = "workspace.create_application" →
  hasPermission (Some p) op ctx w = JBool false.
Proof.
  intros Hadmin Hws Hop. unfold hasPermission. rewrite Hadmin.
  destruct (is_denied p op); [done |].
  unfold workspace_layer. rewrite Hws.
  by destruct Hop as [-> | ->].
Qed.

(** [create_application_denied] on a snapshot whose structure flags are all
    set. *)
Lemma create_application_denied_witness :
  hasPermission (Some with_all_flags) "workspace.create_application" None 1
  = JBool false.
Proof.
  apply (create_application_denied with_all_flags all_flags).
  - reflexivity.
  - reflexivity.
  - right. reflexivity.
Defined.

(** C5, counterexample. A non-admin snapshot without a
    [workspace_structure] object: the evaluator does not refuse the
    creation, it returns [null]. *)
Lemma create_application_not_denied :
  truthy (is_admin bare) = false
  ∧ hasPermission (Some bare) "application.create_application" None 1
    = JNull
  ∧ hasPermission (Some bare) "application.create_application" None 1
    ≠ JBool false.
Proof. repeat split; discriminate. Qed.

(** The database layer on a database that has a collaboration record. *)
Lemma database_layer_collab (p : permissions) (op : string) (c : context)
    (collabs : gmap Z collaboration) (collab : collaboration) :
  database_collaborations p = Some collabs →
  prop collabs (or_id (database_id c) (id c)) = Some collab →
  (op = "database.create_table" →
   database_layer p op (Some c) =
     Some (if truthy (ws_flag p can_create_table) then JBool true
           else collab_can_create_table collab))
  ∧ (op = "database.table.delete" →
     database_layer p op (Some c) =
       Some (if truthy (ws_flag p can_delete_table) then JBool true
             else collab_can_delete_table collab)).
Proof.
  intros Hc Hl. unfold database_layer. rewrite Hc. simpl. rewrite Hl.
  split; intros ->; simpl; by destruct (truthy _).
Qed.

(** C6, as the code has it. A non-admin user, an operation that the
    deny-list does not name, and a context whose database has a
    collaboration record: ['database.create_table'] is allowed when the
    workspace flag or the collaboration flag [can_create_table] is
    [true], and refused when both are [false]; the same holds for
    ['database.table.delete'] with the two [can_delete_table] flags. *)
Theorem table_create_delete_or_widening (p : permissions) (c : context)
    (collabs : gmap Z collaboration) (collab : collaboration) (w : Z)
    (op : string) (ws_of : structure_permission → jsval)
    (collab_of : collaboration → jsval) :
  truthy (is_admin p) = false →
  is_denied p op = false →
  database_collaborations p = Some collabs →
  prop collabs (or_id (database_id c) (id c)) = Some collab →
  (op = "database.create_table" ∧ ws_of = can_create_table
     ∧ collab_of = collab_can_create_table)
  ∨ (op = "database.table.delete" ∧ ws_of = can_delete_table
     ∧ collab_of = collab_can_delete_table) →
  (ws_flag p ws_of = JBool true ∨ collab_of collab = JBool true →
   hasPermission (Some p) op (Some c) w = JBool true)
  ∧ (ws_flag p ws_of = JBool false ∧ collab_of collab = JBool false →
     hasPermission (Some p) op (Some c) w = JBool false).
Proof.
  intros Hadmin Hdeny Hc Hl Hop.
  destruct (database_layer_collab p op c collabs collab Hc Hl)
    as [Hcreate Hdelete].
  assert (Hws : workspace_layer p op = None).
  { apply workspace_layer_table_ops. tauto. }
  destruct Hop as [(Hop & -> & ->) | (Hop & -> & ->)].
  - rewrite (hasPermission_database p op (Some c) w _ Hadmin Hdeny Hws
               (Hcreate Hop)).
    split.
    + intros [Hw | Hcf]; [by rewrite Hw |].
      rewrite Hcf. by case (truthy (ws_flag p _)).
    + intros [Hw Hcf]. by rewrite Hw, Hcf.
  - rewrite (hasPermission_database p op (Some c) w _ Hadmin Hdeny Hws
               (Hdelete Hop)).
    split.
    + intros [Hw | Hcf]; [by rewrite Hw |].
      rewrite Hcf. by case (truthy (ws_flag p _)).
    + intros [Hw Hcf]. by rewrite Hw, Hcf.
Qed.

(** [table_create_delete_or_widening] on a collaborator of database 1 whose
    collaboration allows the creation of tables while the workspace flag
    does not. *)
Lemma table_create_delete_or_widening_witness :
  hasPermission (Some collaborator_of_1) "database.create_table"
    (Some database_1) 1 = JBool true.
Proof.
  apply (table_create_delete_or_widening collaborator_of_1 database_1
           {[ 1 := may_create ]} may_create 1 "database.create_table"
           can_create_table collab_can_create_table).
  - reflexivity.
  - reflexivity.
  - reflexivity.
  - reflexivity.
  - left. repeat split.
  - right. reflexivity.
Defined.

(** C6, counterexample. Both [can_create_table] flags are [true] and the
    database has a collaboration record, yet the operation is refused:
    the deny-list is consulted before the flags. *)
Lemma or_widening_denied :
  truthy (is_admin denied_create) = false
  ∧ ws_flag denied_create can_create_table = JBool true
  ∧ prop ({[ 1 := may_create ]} : gmap Z collaboration)
      (or_id (database_id database_1) (id database_1)) = Some may_create
  ∧ collab_can_create_table may_create = JBool true
  ∧ hasPermission (Some denied_create) "database.create_table"
      (Some database_1) 1 = JBool false
  ∧ hasPermission (Some denied_create) "database.create_table"
      (Some database_1) 1 ≠ JBool true.
Proof. repeat split; discriminate. Qed.

(** C1, as the code has it. Take a non-admin snapshot that has a
    [database_collaborations] map without a record for database [D].
    - The sidebar hides [D]: once the permissions of the workspace are
      loaded and the snapshot is the one of the [access_control] entry,
      [hasAccessToDatabase] returns [false].
    - The evaluator does not refuse on that ground. For an operation
      that the deny-list does not name and a context that designates
      [D], ['database.create_table'] and ['database.table.delete'] return
      the workspace flag ([|| false]), and any other operation gets the
      result it would get if the snapshot had no
      [database_collaborations] map at all. *)
Theorem collaboration_gate (p : permissions) (D : Z)
    (collabs : gmap Z collaboration) (sw : workspace)
    (entries : list manager_entry) (e : manager_entry)
    (c : context) (op : string) (w : Z) :
  truthy (is_admin p) = false →
  database_collaborations p = Some collabs →
  collabs !! D = None →
  permissionsLoaded sw = true →
  ws_permissions sw = Some entries →
  find_access_control entries = Some e →
  entry_permissions e = Some p →
  or_id (database_id c) (id c) = Some D →
  is_denied p op = false →
  hasAccessToDatabase (Some sw) D = JBool false
  ∧ (op = "database.create_table" →
     hasPermission (Some p) op (Some c) w
     = or (ws_flag p can_create_table) (JBool false))
  ∧ (op = "database.table.delete" →
     hasPermission (Some p) op (Some c) w
     = or (ws_flag p can_delete_table) (JBool false))
  ∧ (op ≠ "database.create_table" → op ≠ "database.table.delete" →
     hasPermission (Some p) op (Some c) w
     = hasPermission (Some (without_collaborations p)) op (Some c) w).
Proof.
  intros Hadmin Hc HD Hloaded Hperms Hfind He Hctx Hdeny.
  split; [| split; [| split]].
  - unfold hasAccessToDatabase. rewrite Hloaded, Hperms. simpl.
    destruct entries as [| e0 entries]; [discriminate |].
    by rewrite Hfind, He, Hadmin, Hc, HD.
  - intros Hop.
    apply hasPermission_database; [done | done | |].
    + apply workspace_layer_table_ops. tauto.
    + unfold database_layer. rewrite Hc, Hctx. simpl. rewrite HD.
      by rewrite Hop.
  - intros Hop.
    apply hasPermission_database; [done | done | |].
    + apply workspace_layer_table_ops. tauto.
    + unfold database_layer. rewrite Hc, Hctx. simpl. rewrite HD.
      by rewrite Hop.
  - intros H1 H2.
    rewrite !hasPermission_layers by done.
    by rewrite !database_layer_other_ops.
Qed.

(** [collaboration_gate] on a user who has a table permission but no
    collaboration record. *)
Lemma collaboration_gate_witness :
  hasAccessToDatabase (Some outsider_workspace) 1 = JBool false
  ∧ hasPermission (Some outsider) "database.table.row.update"
      (Some table_5) 1
    = hasPermission (Some (without_collaborations outsider))
        "database.table.row.update" (Some table_5) 1.
Proof.
  destruct (collaboration_gate outsider 1 ∅ outsider_workspace
              [ {| name := "access_control";
                   entry_permissions := Some outsider |} ]
              {| name := "access_control";
                 entry_permissions := Some outsider |}
              table_5 "database.table.row.update" 1)
    as (Hhidden & _ & _ & Hother); try reflexivity.
  split; [exact Hhidden |].
  apply Hother; discriminate.
Defined.

(** C1, counterexample. The snapshot has a collaboration map without a
    record for database 1, and a table permission for table 5 of that
    database: the evaluator does not refuse to update a row of table 5,
    it returns [null]. *)
Lemma collaboration_gate_not_enforced :
  database_collaborations outsider = Some ∅
  ∧ (∅ : gmap Z collaboration) !! 1 = None
  ∧ or_id (database_id table_5) (id table_5) = Some 1
  ∧ hasPermission (Some outsider) "database.table.row.update"
      (Some table_5) 1 = JNull
  ∧ hasPermission (Some outsider) "database.table.row.update"
      (Some table_5) 1 ≠ JBool false.
Proof. repeat split; discriminate. Qed.

End PermissionManagerFacts.

(** * Properties of cache keys *)

Module KeyFacts.
Import Key.

Lemma split_colon_cons (a rest : string) :
  colon_free a = true →
  split_colon (a +:+ ":" +:+ rest) = a :: split_colon rest.
Proof.
  change (":" +:+ rest) with (String ":" rest).
  induction a as [| c a IH]; simpl; [done |].
  intros [Hc Ha]%andb_prop. apply negb_true_iff in Hc.
  by rewrite Hc, (IH Ha).
Qed.

Lemma uint_colon_free (d : Decimal.uint) :
  colon_free (NilEmpty.string_of_uint d) = true.
Proof. induction d; simpl; auto. Qed.

Lemma string_of_Z_colon_free (n : Z) : colon_free (string_of_Z n) = true.
Proof.
  unfold string_of_Z.
  destruct (Z.to_int n) as [d | d]; simpl;
    destruct d; simpl; auto using uint_colon_free.
Qed.

Lemma read_digits_uint (d : Decimal.uint) :
  read_digits (NilEmpty.string_of_uint d) = d.
Proof. induction d; simpl; congruence. Qed.

Lemma parse_decimal_uint (d : Decimal.uint) :
  d ≠ Decimal.Nil →
  parse_decimal (NilEmpty.string_of_uint d) = Some (Z.of_uint d).
Proof.
  intros Hd. unfold parse_decimal. rewrite read_digits_uint.
  by destruct d.
Qed.

Lemma parse_magnitude_uint (d : Decimal.uint) :
  parse_magnitude (NilZero.string_of_uint d) = Some (Z.of_uint d).
Proof.
  destruct d as [| d | d | d | d | d | d | d | d | d | d];
    [reflexivity | destruct d | ..];
    match goal with
    | |- parse_magnitude (NilZero.string_of_uint ?d) = _ =>
        exact (parse_decimal_uint d ltac:(done))
    end.
Qed.

Lemma parse_numeral_uint (d : Decimal.uint) :
  parse_numeral (NilZero.string_of_uint d) = Some (Z.of_uint d).
Proof.
  rewrite <- parse_magnitude_uint. by destruct d.
Qed.

(** The decimal numeral of [n] denotes [n]. *)
Lemma parse_numeral_string_of_Z (n : Z) :
  parse_numeral (string_of_Z n) = Some n.
Proof.
  unfold string_of_Z.
  rewrite <- (DecimalZ.of_to n) at 2.
  destruct (Z.to_int n) as [d | d]; simpl.
  - apply parse_numeral_uint.
  - change (parse_numeral (String "-" (NilZero.string_of_uint d)))
      with (Z.opp <$> parse_magnitude (NilZero.string_of_uint d)).
    by rewrite parse_magnitude_uint.
Qed.

Lemma string_of_Z_inj (a b : Z) : string_of_Z a = string_of_Z b → a = b.
Proof.
  intros Heq. apply (f_equal parse_numeral) in Heq.
  rewrite !parse_numeral_string_of_Z in Heq. congruence.
Qed.

(** [parseInt(String(n))] is [n], for a safe integer [n]. *)
Lemma parseInt_string_of_Z (n : Z) :
  safe_integer n → parseInt (string_of_Z n) = Int n.
Proof.
  intros Hn. unfold parseInt. rewrite parse_numeral_string_of_Z.
  simpl. by rewrite Hn.
Qed.

Lemma split_generateKey (p : params) :
  well_formed p →
  split_colon (_generateKey p) =
    string_of_Z (workspaceId p) :: string_of_Z (userId p)
    :: objectType p :: string_of_Z (objectId p)
    :: split_colon (operation p).
Proof.
  intros Hp. unfold _generateKey.
  by rewrite !split_colon_cons by auto using string_of_Z_colon_free.
Qed.

(** On the key generated for safe ids, [_parseKey] recovers the object
    type and the ids. *)
Lemma parseKey_generateKey (p : params) :
  safe_params p →
  p_objectType (_parseKey (_generateKey p)) = Some (objectType p)
  ∧ p_objectId (_parseKey (_generateKey p)) = Int (objectId p)
  ∧ p_workspaceId (_parseKey (_generateKey p)) = Int (workspaceId p)
  ∧ p_userId (_parseKey (_generateKey p)) = Int (userId p).
Proof.
  intros (Hp & Hw & Hu & Ho). unfold _parseKey.
  rewrite (split_generateKey p Hp). simpl.
  by rewrite !parseInt_string_of_Z.
Qed.

End KeyFacts.

(** * Properties of the permission cache *)

Module CacheFacts.
Import Key KeyFacts PermissionCache CacheSamples.

Section Invariant.
Context {V : Type}.
Implicit Types (c : t V) (m : list (string * entry V))
  (order ks : list string) (key k : string).

Lemma filter_ext_in {A} (P Q : A → Prop) `{!∀ x, Decision (P x)}
    `{!∀ x, Decision (Q x)} (l : list A) :
  (∀ x, x ∈ l → P x ↔ Q x) → filter P l = filter Q l.
Proof.
  induction l as [| x l IH]; intros Hext; [done |].
  rewrite !filter_cons.
  rewrite IH by (intros y Hy; apply Hext; by right).
  assert (Hx : P x ↔ Q x) by (apply Hext; by left).
  destruct (decide (P x)), (decide (Q x)); tauto || done.
Qed.

Lemma filter_all {A} (P : A → Prop) `{!∀ x, Decision (P x)} (l : list A) :
  (∀ x, x ∈ l → P x) → filter P l = l.
Proof.
  induction l as [| x l IH]; intros Hall; [done |].
  rewrite filter_cons_True by (apply Hall; by left).
  f_equal. apply IH. intros y Hy. apply Hall. by right.
Qed.

Lemma remove_key_notin key order :
  key ∉ order → remove_key key order = order.
Proof.
  induction order as [| k order IH]; simpl; [done |].
  intros [Hk Ho]%not_elem_of_cons.
  destruct (decide (k = key)); [congruence |]. by rewrite IH.
Qed.

(** Without duplicates, [indexOf] + [splice] removes the key. *)
Lemma remove_key_filter key order :
  NoDup order → remove_key key order = filter (λ k, k ≠ key) order.
Proof.
  induction order as [| k order IH]; simpl; [done |].
  intros [Hk Ho]%NoDup_cons. rewrite filter_cons.
  destruct (decide (k = key)) as [-> | Hne].
  - destruct (decide (key ≠ key)); [done |].
    symmetry. apply filter_all. intros x Hx ->. done.
  - destruct (decide (k ≠ key)); [| done]. by rewrite IH.
Qed.

Lemma keys_map_delete key m :
  keys (map_delete key m) = filter (λ k, k ≠ key) (keys m).
Proof.
  unfold keys, map_delete.
  induction m as [| [k e] m IH]; [done |].
  rewrite fmap_cons, !filter_cons. simpl.
  destruct (decide (k ≠ key)); by rewrite ?fmap_cons, IH.
Qed.

Lemma keys_filter_fst (P : string → Prop) `{!∀ k, Decision (P k)} m :
  keys (filter (λ kv, P kv.1) m) = filter P (keys m).
Proof.
  unfold keys. induction m as [| [k e] m IH]; [done |].
  rewrite fmap_cons, !filter_cons. simpl.
  destruct (decide (P k)); by rewrite ?fmap_cons, IH.
Qed.

Lemma delete_key_inv key c : cache_inv c → cache_inv (delete_key key c).
Proof.
  intros (Hm & Ho & Hsame). unfold cache_inv. simpl.
  rewrite keys_map_delete, (remove_key_filter key _ Ho).
  split; [by apply NoDup_filter |]. split; [by apply NoDup_filter |].
  intros k. rewrite !list_elem_of_filter. by rewrite Hsame.
Qed.

(** Deleting a list of keys one after the other leaves the entries whose
    key is not in the list, in their order. *)
Lemma fold_delete_key ks c :
  cache_inv c →
  let c' := fold_left (λ c key, delete_key key c) ks c in
  cache_inv c'
  ∧ ttl c' = ttl c ∧ maxSize c' = maxSize c
  ∧ cache c' = filter (λ kv, kv.1 ∉ ks) (cache c)
  ∧ accessOrder c' = filter (λ k, k ∉ ks) (accessOrder c).
Proof.
  revert c. induction ks as [| key ks IH]; intros c Hinv; simpl.
  - repeat split; try apply Hinv.
    + symmetry. apply filter_all. intros x _. apply not_elem_of_nil.
    + symmetry. apply filter_all. intros x _. apply not_elem_of_nil.
  - destruct (IH (delete_key key c) (delete_key_inv key c Hinv))
      as (Hinv' & Httl & Hmax & Hcache & Horder).
    split; [done |]. split; [done |]. split; [done |].
    rewrite Hcache, Horder. simpl.
    rewrite (remove_key_filter key _ (proj1 (proj2 Hinv))).
    unfold map_delete. rewrite !list_filter_filter.
    split; apply list_filter_iff; intros x; rewrite not_elem_of_cons;
      tauto.
Qed.

Lemma cleanup_expired_fold now c :
  cleanup_expired now c
  = fold_left (λ c key, delete_key key c)
      (expired_keys now c (cache c)) c.
Proof.
  unfold cleanup_expired, expired_keys.
  generalize (cache c) as m. intros m. revert c.
  induction m as [| [k e] m IH]; intros c; simpl; [done |].
  destruct (is_expired now c e) eqn:He; simpl.
  - apply (IH (delete_key k c)).
  - apply IH.
Qed.

Lemma cleanup_expired_none now c :
  (∀ kv, kv ∈ cache c → is_expired now c kv.2 = false) →
  cleanup_expired now c = c.
Proof.
  intros Hfresh. rewrite cleanup_expired_fold. unfold expired_keys.
  replace (List.filter _ (cache c)) with (@nil (string * entry V));
    [done |].
  symmetry. induction (cache c) as [| kv m IH]; simpl; [done |].
  rewrite (Hfresh kv) by by left.
  apply IH. intros kv' Hkv'. apply Hfresh. by right.
Qed.

Lemma cleanup_expired_inv now c :
  cache_inv c →
  cache_inv (cleanup_expired now c)
  ∧ ttl (cleanup_expired now c) = ttl c
  ∧ maxSize (cleanup_expired now c) = maxSize c.
Proof.
  intros Hinv. rewrite cleanup_expired_fold.
  destruct (fold_delete_key (expired_keys now c (cache c)) c Hinv)
    as (? & ? & ? & _). done.
Qed.

Lemma evict_lru_inv limit m order :
  NoDup (keys m) → NoDup order → (∀ k, k ∈ order ↔ k ∈ keys m) →
  let r := evict_lru limit m order in
  NoDup (keys r.1) ∧ NoDup r.2 ∧ ∀ k, k ∈ r.2 ↔ k ∈ keys r.1.
Proof.
  revert m. induction order as [| oldest rest IH]; intros m Hm Ho Hsame;
    simpl; [done |].
  destruct (Z.ltb limit (Z.of_nat (length m))); [| done].
  apply NoDup_cons in Ho as [Hnotin Hrest].
  apply IH; [| done |].
  - rewrite keys_map_delete. by apply NoDup_filter.
  - intros k. rewrite keys_map_delete, list_elem_of_filter.
    rewrite <- Hsame, elem_of_cons.
    split; [| intros [? [? | ?]]; done].
    intros Hk. split; [| by right]. by intros ->.
Qed.

Lemma evict_lru_within limit m order :
  (Z.of_nat (length m) <= limit)%Z → evict_lru limit m order = (m, order).
Proof.
  intros Hle. destruct order as [| k rest]; simpl; [done |].
  by rewrite (proj2 (Z.ltb_ge _ _) Hle).
Qed.

Lemma cleanup_ttl now c : ttl (_cleanup now c) = ttl c.
Proof.
  unfold _cleanup. destruct (evict_lru _ _ _). simpl.
  rewrite cleanup_expired_fold.
  generalize (expired_keys now c (cache c)) as ks. intros ks. revert c.
  induction ks as [| k ks IH]; intros c; simpl; [done |].
  by rewrite IH.
Qed.

Lemma cleanup_maxSize now c : maxSize (_cleanup now c) = maxSize c.
Proof.
  unfold _cleanup. destruct (evict_lru _ _ _). simpl.
  rewrite cleanup_expired_fold.
  generalize (expired_keys now c (cache c)) as ks. intros ks. revert c.
  induction ks as [| k ks IH]; intros c; simpl; [done |].
  by rewrite IH.
Qed.

Lemma cleanup_inv now c : cache_inv c → cache_inv (_cleanup now c).
Proof.
  intros Hinv. unfold _cleanup.
  destruct (cleanup_expired_inv now c Hinv) as ((Hm & Ho & Hsame) & _).
  pose proof (evict_lru_inv (maxSize (cleanup_expired now c)) _ _
                Hm Ho Hsame) as Hev.
  by destruct (evict_lru _ _ _).
Qed.

(** [_cleanup] changes nothing when no entry has expired and the map is
    not over its limit. *)
Lemma cleanup_idle now c :
  (∀ kv, kv ∈ cache c → is_expired now c kv.2 = false) →
  (Z.of_nat (length (cache c)) <= maxSize c)%Z →
  _cleanup now c = c.
Proof.
  intros Hfresh Hle. unfold _cleanup.
  rewrite (cleanup_expired_none now c Hfresh).
  rewrite (evict_lru_within _ _ _ Hle). by destruct c.
Qed.

Lemma map_get_map_set key (e : entry V) m :
  map_get key (map_set key e m) = Some e.
Proof.
  induction m as [| [k e'] m IH]; simpl.
  - by destruct (decide (key = key)).
  - destruct (decide (k = key)) as [-> | Hne]; simpl.
    + by destruct (decide (key = key)).
    + by destruct (decide (k = key)).
Qed.

Lemma map_set_new key (e : entry V) m :
  key ∉ keys m → map_set key e m = (m ++ [(key, e)])%list.
Proof.
  unfold keys. induction m as [| [k e'] m IH]; simpl; [done |].
  intros [Hk Hm]%not_elem_of_cons.
  destruct (decide (k = key)); [congruence |]. by rewrite IH.
Qed.

Lemma keys_map_set_old key (e : entry V) m :
  key ∈ keys m → keys (map_set key e m) = keys m.
Proof.
  unfold keys. induction m as [| [k e'] m IH]; simpl.
  - by intros ?%elem_of_nil.
  - intros Hin. destruct (decide (k = key)) as [-> | Hne]; [done |].
    simpl. f_equal. apply IH.
    apply elem_of_cons in Hin as [? | ?]; [congruence | done].
Qed.

Lemma update_order_inv key m order :
  NoDup (keys m) → NoDup order → (∀ k, k ∈ order ↔ k ∈ keys m) →
  key ∈ keys m →
  NoDup (_updateAccessOrder key order)
  ∧ ∀ k, k ∈ _updateAccessOrder key order ↔ k ∈ keys m.
Proof.
  intros Hm Ho Hsame Hin. unfold _updateAccessOrder.
  rewrite (remove_key_filter key order Ho). split.
  - apply NoDup_app. split; [by apply NoDup_filter |].
    split; [| apply NoDup_singleton].
    intros k [Hne _]%list_elem_of_filter ->%list_elem_of_singleton.
    done.
  - intros k.
    rewrite elem_of_app, list_elem_of_filter, list_elem_of_singleton.
    rewrite Hsame. destruct (decide (k = key)) as [-> | ?]; tauto.
Qed.

Lemma set_inv cleanup_now now p v c :
  cache_inv c → cache_inv (set cleanup_now now p v c).
Proof.
  intros Hinv.
  destruct (cleanup_inv cleanup_now c Hinv) as (Hm & Ho & Hsame).
  unfold set, cache_inv. simpl.
  set (c1 := _cleanup cleanup_now c) in *.
  set (key := _generateKey p). set (e := {| value := v; timestamp := now |}).
  destruct (decide (key ∈ keys (cache c1))) as [Hin | Hnotin].
  - rewrite (keys_map_set_old key e _ Hin).
    split; [done |]. by apply update_order_inv.
  - rewrite (map_set_new key e _ Hnotin).
    unfold _updateAccessOrder.
    rewrite remove_key_notin by by rewrite Hsame.
    unfold keys. rewrite fmap_app. simpl.
    assert (Hfresh : ∀ x, x ∈ (cache c1).*1 → x ∉ [key]).
    { intros x Hx ->%list_elem_of_singleton. done. }
    split; [apply NoDup_app; auto using NoDup_singleton |].
    split.
    + apply NoDup_app. split; [done |].
      split; [| apply NoDup_singleton].
      intros x Hx. apply Hfresh. by apply Hsame.
    + intros k. rewrite !elem_of_app. by rewrite Hsame.
Qed.

Lemma map_get_Some_keys key m e : map_get key m = Some e → key ∈ keys m.
Proof.
  unfold keys. induction m as [| [k e'] m IH]; simpl; [done |].
  destruct (decide (k = key)) as [-> | ?]; [by left |].
  intros ?. right. by apply IH.
Qed.

Lemma get_inv now p c : cache_inv c → cache_inv (get now p c).2.
Proof.
  intros Hinv. unfold get.
  destruct (map_get _ _) as [e |] eqn:Hget; [| done].
  destruct (is_expired now c e); simpl.
  - by apply delete_key_inv.
  - destruct Hinv as (Hm & Ho & Hsame).
    split; [done |]. simpl.
    eapply update_order_inv; eauto using map_get_Some_keys.
Qed.

Lemma constructor_inv o : cache_inv (constructor o : t V).
Proof.
  unfold cache_inv. simpl. split; [apply NoDup_nil_2 |].
  split; [apply NoDup_nil_2 | done].
Qed.

Lemma map_get_map_delete key m : map_get key (map_delete key m) = None.
Proof.
  unfold map_delete. induction m as [| [k e] m IH]; [done |].
  rewrite filter_cons. simpl.
  destruct (decide (k ≠ key)) as [Hne | Heq]; [| done].
  simpl. by destruct (decide (k = key)).
Qed.

(** *** [set] followed by [get] *)

Lemma get_set_within c p v cleanup_now set_now get_now :
  (get_now - set_now <= ttl c)%Z →
  (get get_now p (set cleanup_now set_now p v c)).1 = Some v.
Proof.
  intros Hle. unfold get. simpl. rewrite map_get_map_set.
  unfold is_expired. simpl. rewrite cleanup_ttl.
  by rewrite (proj2 (Z.ltb_ge _ _) Hle).
Qed.

Lemma get_set_expired c p v cleanup_now set_now get_now :
  cache_inv c →
  (ttl c < get_now - set_now)%Z →
  let r := get get_now p (set cleanup_now set_now p v c) in
  r.1 = None
  ∧ map_get (_generateKey p) (cache r.2) = None
  ∧ _generateKey p ∉ accessOrder r.2.
Proof.
  intros Hinv Hlt.
  pose proof (set_inv cleanup_now set_now p v c Hinv) as (_ & Ho & _).
  revert Ho. unfold get. simpl. rewrite map_get_map_set.
  unfold is_expired. simpl. rewrite cleanup_ttl.
  rewrite (proj2 (Z.ltb_lt _ _) Hlt). simpl. intros Ho.
  split; [done |]. split; [apply map_get_map_delete |].
  rewrite (remove_key_filter _ _ Ho).
  by intros [Hne _]%list_elem_of_filter.
Qed.

(** C8. In a cache state reached through the methods of the class,
    [set(k, v)] followed by [get(k)] returns [v] when the clock has
    advanced by at most the TTL since the value was stored; when it has
    advanced by more, [get(k)] returns [undefined] and the entry is
    gone from the map and from the access order. *)
Theorem cache_round_trip c p v (cleanup_now set_now get_now : Z) :
  cache_inv c →
  let r := get get_now p (set cleanup_now set_now p v c) in
  ((get_now - set_now <= ttl c)%Z → r.1 = Some v)
  ∧ ((ttl c < get_now - set_now)%Z →
     r.1 = None
     ∧ map_get (_generateKey p) (cache r.2) = None
     ∧ _generateKey p ∉ accessOrder r.2).
Proof.
  intros Hinv. split.
  - apply get_set_within.
  - by apply get_set_expired.
Qed.

(** C10, as the code has it. A TTL of [0] given to the constructor is
    replaced by the default of five minutes, and a maximal size of [0] by
    the default of 1000 entries: on a cache built with [ttl: 0], a [get]
    at most five minutes after the [set] still returns the cached value.
    The fallback is for [0] alone: any other TTL is kept as it is given,
    and a negative one does disable caching, since on a cache built with
    it a [get] at or after the time of the [set] returns [undefined]. *)
Theorem zero_ttl_falls_back (o : options) p (v : V)
    (cleanup_now set_now get_now : Z) :
  (opt_ttl o = Some 0%Z →
   ttl (constructor o : t V) = 300000%Z
   ∧ ((get_now - set_now <= 300000)%Z →
      (get get_now p (set cleanup_now set_now p v (constructor o))).1
      = Some v))
  ∧ (opt_maxSize o = Some 0%Z → maxSize (constructor o : t V) = 1000%Z)
  ∧ (∀ n : Z, opt_ttl o = Some n → n ≠ 0%Z →
     ttl (constructor o : t V) = n
     ∧ ((n < 0)%Z → (set_now <= get_now)%Z →
        (get get_now p (set cleanup_now set_now p v (constructor o))).1
        = None)).
Proof.
  split; [| split].
  - intros Httl.
    assert (Hdefault : ttl (constructor o : t V) = 300000%Z)
      by (simpl; by rewrite Httl).
    split; [done |]. intros Hle.
    apply get_set_within. by rewrite Hdefault.
  - intros Hmax. simpl. by rewrite Hmax.
  - intros n Httl Hn.
    assert (Hkept : ttl (constructor o : t V) = n).
    { simpl. rewrite Httl. simpl.
      by destruct (Z.eqb_spec n 0). }
    split; [done |]. intros Hneg Hle.
    apply get_set_expired; [apply constructor_inv |].
    rewrite Hkept. lia.
Qed.

(** *** Invalidation *)

(** An invalidation keeps the entries whose key fails the test, in
    their order. *)
Lemma invalidate_where_filter (test : string → bool) c :
  cache_inv c →
  let c' := invalidate_where test c in
  cache_inv c'
  ∧ ttl c' = ttl c ∧ maxSize c' = maxSize c
  ∧ cache c' = filter (λ kv, test kv.1 = false) (cache c)
  ∧ accessOrder c' = filter (λ k, test k = false) (accessOrder c).
Proof.
  intros Hinv. unfold invalidate_where.
  set (ks := List.filter test (keys (cache c))).
  destruct (fold_delete_key ks c Hinv)
    as (Hinv' & Httl & Hmax & Hcache & Horder).
  assert (Hks : ∀ k, k ∈ keys (cache c) → k ∉ ks ↔ test k = false).
  { intros k Hk. unfold ks.
    rewrite list_elem_of_In, filter_In, <- list_elem_of_In.
    destruct (test k); split.
    - intros Hno. exfalso. by apply Hno.
    - done.
    - done.
    - by intros _ [_ ?]. }
  cbv zeta. rewrite Hcache, Horder.
  split; [done |]. split; [done |]. split; [done |]. split.
  - apply filter_ext_in. intros [k e] Hin. apply Hks.
    unfold keys. by apply (list_elem_of_fmap_2 fst) in Hin.
  - apply filter_ext_in. intros k Hin. apply Hks.
    by apply (proj2 (proj2 Hinv)).
Qed.

Lemma reachable_inv c : reachable c → cache_inv c.
Proof.
  induction 1 as [o | now p c _ IH | n1 n2 p v c _ IH | p c _ IH
                  | test c _ IH | c _ IH].
  - apply constructor_inv.
  - by apply get_inv.
  - by apply set_inv.
  - by apply delete_key_inv.
  - by apply invalidate_where_filter.
  - unfold cache_inv. simpl. split; [apply NoDup_nil_2 |].
    split; [apply NoDup_nil_2 | done].
Qed.

(** *** [invalidateByField] *)

(** On a generated key the test of [invalidateByField] reads the object
    type and the object id the key was generated from. *)
Lemma targets_field_generateKey fieldId p :
  safe_params p →
  targets_field fieldId (_generateKey p) = true
  ↔ objectType p = "field" ∧ objectId p = fieldId.
Proof.
  intros Hp. unfold targets_field, targets.
  destruct (parseKey_generateKey p Hp) as (-> & -> & _).
  rewrite andb_true_iff, !bool_decide_eq_true.
  split; intros [? ?]; split; congruence.
Qed.

(** C9. In a cache state reached through the methods of the class, and
    for a field id that is a safe integer (7 in particular),
    [invalidateByField(fieldId)] removes from the map and from the access
    order the keys that the test
    [objectType === 'field' && objectId === fieldId] accepts, and leaves
    every other entry where it was, with its value and its timestamp; on a
    key generated from parameters whose object type holds no colon and
    whose ids are safe integers, the test accepts exactly the object type
    ['field'] with the object id [fieldId], so that an entry for another
    field or for an object of another type stays. *)
Theorem invalidateByField_frame (fieldId : Z) c :
  safe_integer fieldId →
  cache_inv c →
  let c' := invalidateByField fieldId c in
  (∀ p, safe_params p →
     targets_field fieldId (_generateKey p) = true
     ↔ objectType p = "field" ∧ objectId p = fieldId)
  ∧ cache c' = filter (λ kv, targets_field fieldId kv.1 = false) (cache c)
  ∧ accessOrder c'
    = filter (λ k, targets_field fieldId k = false) (accessOrder c)
  ∧ ttl c' = ttl c ∧ maxSize c' = maxSize c.
Proof.
  intros _ Hinv. cbv zeta. split; [apply targets_field_generateKey |].
  destruct (invalidate_where_filter (targets_field fieldId) c Hinv)
    as (_ & Httl & Hmax & Hcache & Horder).
  done.
Qed.

(** *** A run of [set] calls *)

(** As long as nothing expires and the map holds at most [maxSize]
    entries when [set] is entered, each new key is appended and nothing
    is evicted. *)
Lemma set_all_fresh (ws : list (write V)) c :
  accessOrder c = keys (cache c) →
  NoDup (keys (cache c) ++ written_keys ws)%list →
  (Z.of_nat (length (cache c) + length ws) <= maxSize c + 1)%Z →
  (∀ kv b, kv ∈ cache c → b ∈ ws →
     (w_cleanup_now b - timestamp kv.2 <= ttl c)%Z) →
  (∀ a b, a ∈ ws → b ∈ ws → (w_cleanup_now b - w_now a <= ttl c)%Z) →
  let c' := set_all ws c in
  keys (cache c') = (keys (cache c) ++ written_keys ws)%list
  ∧ accessOrder c' = keys (cache c')
  ∧ maxSize c' = maxSize c ∧ ttl c' = ttl c.
Proof.
  revert c. induction ws as [| w ws IH];
    intros c Horder Hnodup Hlen Hold Hnew; simpl.
  - by rewrite app_nil_r.
  - set (key := _generateKey (w_params w)).
    set (e := {| value := w_value w; timestamp := w_now w |}).
    assert (Hidle : _cleanup (w_cleanup_now w) c = c).
    { apply cleanup_idle.
      - intros kv Hkv. unfold is_expired. apply Z.ltb_ge.
        apply Hold; [done | by left].
      - simpl in Hlen. lia. }
    assert (Hkey : key ∉ keys (cache c)).
    { apply NoDup_app in Hnodup as (_ & Hdisj & _).
      intros Hin. apply (Hdisj key Hin). by left. }
    unfold set. rewrite Hidle. fold key e.
    rewrite (map_set_new key e _ Hkey).
    unfold _updateAccessOrder.
    rewrite remove_key_notin by by rewrite Horder.
    match goal with
    | |- context [set_all ws ?c1] =>
        destruct (IH c1) as (Hkeys & Hord & Hmax & Httl)
    end; simpl.
    + unfold keys. by rewrite fmap_app, Horder.
    + unfold keys. rewrite fmap_app. simpl.
      by rewrite <- app_assoc.
    + rewrite length_app. simpl in *. lia.
    + intros kv b [Hkv | ->%list_elem_of_singleton]%elem_of_app Hb.
      * apply Hold; [done | by right].
      * simpl. apply Hnew; [by left | by right].
    + intros a b Ha Hb. apply Hnew; by right.
    + simpl in *. split; [| done]. rewrite Hkeys. unfold keys.
      rewrite fmap_app. simpl. by rewrite <- app_assoc.
Qed.

(** C3, what the code does. [set] cleans up before it inserts, so the
    limit is tested against the size the map had before the insertion:
    starting from an empty cache, [maxSize + 1] calls of [set] with
    distinct keys, none of which expires meanwhile, leave [maxSize + 1]
    entries in the map; no key is evicted. *)
Theorem lru_bound_exceeded (o : options) (ws : list (write V)) :
  NoDup (written_keys ws) →
  Z.of_nat (length ws) = (maxSize (constructor o : t V) + 1)%Z →
  (∀ a b, a ∈ ws → b ∈ ws →
     (w_cleanup_now b - w_now a <= ttl (constructor o : t V))%Z) →
  let c' := set_all ws (constructor o) in
  size c' = (maxSize (constructor o : t V) + 1)%Z
  ∧ keys (cache c') = written_keys ws
  ∧ accessOrder c' = written_keys ws.
Proof.
  intros Hnodup Hlen Hwindow.
  destruct (set_all_fresh ws (constructor o))
    as (Hkeys & Hord & _ & _); try done.
  - simpl in *. lia.
  - intros kv b Hkv. by apply elem_of_nil in Hkv.
  - cbv zeta. simpl in Hkeys. rewrite Hord, Hkeys. split; [| done].
    unfold size. rewrite <- Hlen.
    rewrite <- (length_fmap fst (cache _)).
    fold (keys (cache (set_all ws (constructor o)))).
    rewrite Hkeys. unfold written_keys. by rewrite length_fmap.
Qed.

End Invariant.

(** *** Concrete runs *)

(** The sample cache is a state of a cache object. *)
Lemma sample_inv : cache_inv sample.
Proof. repeat apply set_inv. apply constructor_inv. Qed.

(** [lru_bound_exceeded] on a cache of capacity 2: three entries after
    three insertions. *)
Lemma lru_bound_exceeded_witness :
  maxSize small = 2%Z
  ∧ size sample = 3%Z
  ∧ keys (cache sample)
    = ["1:2:table:7:read"; "1:2:field:7:read"; "1:2:field:8:read"].
Proof.
  destruct (lru_bound_exceeded
              {| opt_ttl := Some 100%Z; opt_maxSize := Some 2%Z |}
              three_writes) as (Hsize & Hkeys & _).
  - apply (bool_decide_unpack _). by vm_compute.
  - reflexivity.
  - intros a b Ha Hb. unfold three_writes in *.
    repeat (apply elem_of_cons in Ha as [-> | Ha]);
      try (by apply elem_of_nil in Ha);
      repeat (apply elem_of_cons in Hb as [-> | Hb]);
      try (by apply elem_of_nil in Hb); by vm_compute.
  - split; [reflexivity |]. split; [exact Hsize | exact Hkeys].
Defined.

(** [cache_round_trip] with a TTL of 100 ms: a hit 100 ms after the [set],
    a miss 101 ms after it. *)
Lemma cache_round_trip_witness :
  (get 101 (key_of "row" 4) (set 0 1 (key_of "row" 4) true sample)).1
  = Some true
  ∧ (get 102 (key_of "row" 4) (set 0 1 (key_of "row" 4) true sample)).1
    = None.
Proof.
  split.
  - apply (cache_round_trip sample (key_of "row" 4) true 0 1 101
             sample_inv).
    by vm_compute.
  - apply (cache_round_trip sample (key_of "row" 4) true 0 1 102
             sample_inv).
    by vm_compute.
Defined.

(** The claim that caching cannot be disabled through the [ttl] option
    fails on [new PermissionCache({ttl: -1})]: -1 is truthy and is kept,
    and a [get] at the very time of the [set], or later, finds the entry
    expired. *)
Lemma negative_ttl_not_replaced :
  ttl (constructor {| opt_ttl := Some (-1)%Z; opt_maxSize := None |}
       : t bool) = (-1)%Z
  ∧ (get 0 (key_of "row" 4)
       (set 0 0 (key_of "row" 4) true
          (constructor {| opt_ttl := Some (-1)%Z; opt_maxSize := None |}))).1
    = None
  ∧ (get 1 (key_of "row" 4)
       (set 0 0 (key_of "row" 4) true
          (constructor {| opt_ttl := Some (-1)%Z; opt_maxSize := None |}))).1
    = None.
Proof. by vm_compute. Qed.

(** [zero_ttl_falls_back] on [new PermissionCache({ttl: 0, maxSize: 0})]
    and on [new PermissionCache({ttl: -5})]. *)
Lemma zero_ttl_falls_back_witness :
  (ttl (constructor {| opt_ttl := Some 0%Z; opt_maxSize := Some 0%Z |}
        : t bool) = 300000%Z
   ∧ (get 300000 (key_of "row" 4)
        (set 0 0 (key_of "row" 4) true
           (constructor {| opt_ttl := Some 0%Z; opt_maxSize := Some 0%Z |}))).1
     = Some true
   ∧ maxSize (constructor {| opt_ttl := Some 0%Z; opt_maxSize := Some 0%Z |}
              : t bool) = 1000%Z)
  ∧ (ttl (constructor {| opt_ttl := Some (-5)%Z; opt_maxSize := None |}
          : t bool) = (-5)%Z
     ∧ (get 10 (key_of "row" 4)
          (set 10 10 (key_of "row" 4) true
             (constructor {| opt_ttl := Some (-5)%Z; opt_maxSize := None |}))).1
       = None).
Proof.
  split.
  - destruct (zero_ttl_falls_back
                {| opt_ttl := Some 0%Z; opt_maxSize := Some 0%Z |}
                (key_of "row" 4) true 0 0 300000) as (Httl & Hmax & _).
    destruct (Httl eq_refl) as [Hdefault Hget].
    split; [exact Hdefault |].
    split; [apply Hget; by vm_compute | exact (Hmax eq_refl)].
  - destruct (zero_ttl_falls_back
                {| opt_ttl := Some (-5)%Z; opt_maxSize := None |}
                (key_of "row" 4) true 10 10 10) as (_ & _ & Hkept).
    destruct (Hkept (-5)%Z eq_refl ltac:(done)) as [Httl Hget].
    split; [exact Httl |].
    apply Hget; by vm_compute.
Defined.

(** [invalidateByField_frame] on a cache that holds entries for table 7,
    field 7 and field 8: only the entry of field 7 goes. *)
Lemma invalidateByField_frame_witness :
  keys (cache (invalidateByField 7 sample))
  = ["1:2:table:7:read"; "1:2:field:8:read"]
  ∧ accessOrder (invalidateByField 7 sample)
    = ["1:2:table:7:read"; "1:2:field:8:read"]
  ∧ targets_field 7 (_generateKey (key_of "field" 7)) = true.
Proof.
  destruct (invalidateByField_frame 7 sample eq_refl sample_inv)
    as (Hkey & Hcache & Horder & _).
  rewrite Hcache, Horder. split; [reflexivity |]. split; [reflexivity |].
  apply (Hkey (key_of "field" 7)); [by repeat split | by split].
Defined.

End CacheFacts.

(** * Properties of the condition rule engine *)

Module ConditionRulesFacts.
Import ConditionRules.

Lemma pick_priority (a : rule) (best : option rule) (r : rule) :
  pick a best = Some r →
  (priority a <= priority r)%Z
  ∧ (r = a ∨ best = Some r)
  ∧ ∀ b, best = Some b → (priority b <= priority r)%Z.
Proof.
  unfold pick, beats. destruct best as [b |].
  - destruct (Z.ltb_spec (priority b) (priority a)); simpl.
    + intros [= <-]. split; [lia |]. split; [by left |].
      intros ? [= <-]. lia.
    + destruct (Z.eqb_spec (priority a) (priority b)); simpl.
      * destruct (Z.leb (rule_id a) (rule_id b)); intros [= <-].
        -- split; [lia |]. split; [by left |]. intros ? [= <-]. lia.
        -- split; [lia |]. split; [by right |]. intros ? [= <-]. lia.
      * intros [= <-]. split; [lia |]. split; [by right |].
        intros ? [= <-]. lia.
  - intros [= <-]. split; [lia |]. split; [by left |]. done.
Qed.

Lemma pick_is_Some (a : rule) (best : option rule) :
  pick a best ≠ None.
Proof. unfold pick. by destruct best as [b |]; [destruct (beats a b) |]. Qed.

(** The fold over the candidates returns one of highest priority. *)
Lemma foldr_pick_max (l : list rule) :
  match foldr pick None l with
  | Some r => r ∈ l ∧ ∀ r', r' ∈ l → (priority r' <= priority r)%Z
  | None => l = []
  end.
Proof.
  induction l as [| a l IH]; [done |].
  change (foldr pick None (a :: l)) with (pick a (foldr pick None l)).
  destruct (pick a (foldr pick None l)) as [r |] eqn:Hpick;
    [| by apply pick_is_Some in Hpick].
  destruct (pick_priority _ _ _ Hpick) as (Ha & Hr & Hbest).
  split.
  - destruct Hr as [-> | Hr]; [by left |].
    rewrite Hr in IH. right. apply IH.
  - intros r' [-> | Hr']%elem_of_cons; [done |].
    destruct (foldr pick None l) as [b |];
      [| subst l; by apply elem_of_nil in Hr'].
    destruct IH as [_ IH].
    etrans; [by apply IH | by apply Hbest].
Qed.

Lemma elem_of_applicable (rules : list rule) (rw : row) (user : Z)
    (r : rule) :
  r ∈ List.filter (applicable rw user) rules
  ↔ r ∈ rules ∧ applicable rw user r = true.
Proof. by rewrite !list_elem_of_In, filter_In. Qed.

(** C7. When at least one active rule of the table matches the row for
    the acting user, the engine selects an active matching rule whose
    priority is the highest among the active matching rules, and the
    level of that rule is the engine's decision, which is the level of
    the row when no explicit row permission exists. In particular, when
    a matching active rule has priority 10 and every other matching
    active rule has priority 5, the rule of priority 10 is selected. *)
Theorem condition_rule_priority (rules : list rule) (rw : row) (user : Z)
    (r0 : rule) :
  r0 ∈ rules →
  applicable rw user r0 = true →
  ∃ r,
    select_rule rules rw user = Some r
    ∧ r ∈ rules
    ∧ applicable rw user r = true
    ∧ (∀ r', r' ∈ rules → applicable rw user r' = true →
         (priority r' <= priority r)%Z)
    ∧ evaluate rules rw user = Some (rule_level r)
    ∧ row_level None rules rw user = rule_level r
    ∧ (priority r0 = 10%Z →
       (∀ r', r' ∈ rules → applicable rw user r' = true →
          r' = r0 ∨ priority r' = 5%Z) →
       r = r0).
Proof.
  intros Hin Happ.
  pose proof (foldr_pick_max (List.filter (applicable rw user) rules))
    as Hmax.
  unfold row_level, evaluate, select_rule.
  destruct (foldr pick None _) as [r |].
  - destruct Hmax as [[Hr Hrapp]%elem_of_applicable Hmax].
    assert (Hall : ∀ r', r' ∈ rules → applicable rw user r' = true →
              (priority r' <= priority r)%Z).
    { intros r' Hr' Happ'. apply Hmax. by apply elem_of_applicable. }
    exists r. repeat split; try done.
    intros Hten Hothers.
    destruct (Hothers r Hr Hrapp) as [-> | Hfive]; [done |].
    specialize (Hall r0 Hin Happ). lia.
  - assert (Hr0 : r0 ∈ List.filter (applicable rw user) rules)
      by by apply elem_of_applicable.
    rewrite Hmax in Hr0. by apply elem_of_nil in Hr0.
Qed.

(** [condition_rule_priority] on a row that matches a rule of priority 5
    and a rule of priority 10, in both orders of the rule list. *)
Lemma condition_rule_priority_witness :
  applicable finished_row 1 creator_rule = true
  ∧ applicable finished_row 1 done_rule = true
  ∧ evaluate [creator_rule; done_rule] finished_row 1 = Some read_only
  ∧ evaluate [done_rule; creator_rule] finished_row 1 = Some read_only.
Proof.
  split; [reflexivity |]. split; [reflexivity |].
  assert (Hothers : ∀ rules : list rule, (∀ r', r' ∈ rules →
              r' = creator_rule ∨ r' = done_rule) →
            ∀ r', r' ∈ rules → applicable finished_row 1 r' = true →
            r' = done_rule ∨ priority r' = 5%Z).
  { intros rules Hrules r' Hr' _.
    destruct (Hrules r' Hr') as [-> | ->]; [by right | by left]. }
  split.
  - destruct (condition_rule_priority [creator_rule; done_rule]
                finished_row 1 done_rule)
      as (r & _ & _ & _ & _ & Heval & _ & Hten).
    + right. left.
    + reflexivity.
    + rewrite Heval, Hten; [reflexivity | reflexivity |].
      apply Hothers. intros r' Hr'.
      rewrite !elem_of_cons, elem_of_nil in Hr'. tauto.
  - destruct (condition_rule_priority [done_rule; creator_rule]
                finished_row 1 done_rule)
      as (r & _ & _ & _ & _ & Heval & _ & Hten).
    + left.
    + reflexivity.
    + rewrite Heval, Hten; [reflexivity | reflexivity |].
      apply Hothers. intros r' Hr'.
      rewrite !elem_of_cons, elem_of_nil in Hr'. tauto.
Defined.

End ConditionRulesFacts.

(** * Further properties of the evaluator *)

Module EvaluatorExtras.
Import Js PermissionManager PermissionManagerFacts.

(** What a layer can answer. *)

Lemma workspace_layer_answer (p : permissions) (op : string) (r : jsval) :
  op ≠ "application.delete" →
  workspace_layer p op = Some r → r = JBool false.
Proof.
  intros Hop%eqb_lit_ne. unfold workspace_layer.
  destruct (workspace_structure p); [| done]. rewrite Hop.
  destruct (_ || _); congruence.
Qed.

Lemma workspace_layer_silent (p : permissions) (op : string) :
  op ≠ "application.create_application" →
  op ≠ "workspace.create_application" →
  op ≠ "application.delete" →
  workspace_layer p op = None.
Proof.
  intros H1%eqb_lit_ne H2%eqb_lit_ne H3%eqb_lit_ne. unfold workspace_layer.
  rewrite H1, H2, H3. by destruct (workspace_structure p).
Qed.

Lemma table_layer_answer (p : permissions) (op : string)
    (ctx : option context) (r : jsval) :
  op ≠ "database.table.field.create" →
  op ≠ "database.table.field.delete" →
  table_layer p op ctx = Some r → r = JBool false.
Proof.
  intros H1%eqb_lit_ne H2%eqb_lit_ne. unfold table_layer.
  rewrite H1, H2.
  destruct ctx, (table_permissions p); try done.
  destruct (prop _ _); [| done]. destruct (_ && _); congruence.
Qed.

Lemma table_layer_silent (p : permissions) (op : string)
    (ctx : option context) :
  op ≠ "database.table.field.create" →
  op ≠ "database.table.field.delete" →
  op ≠ "database.table.update" →
  op ≠ "database.table.row.create" →
  op ≠ "database.table.row.update" →
  table_layer p op ctx = None.
Proof.
  intros H1%eqb_lit_ne H2%eqb_lit_ne H3%eqb_lit_ne H4%eqb_lit_ne
    H5%eqb_lit_ne.
  unfold table_layer. rewrite H1, H2, H3, H4, H5.
  destruct ctx, (table_permissions p); try done. by destruct (prop _ _).
Qed.

Lemma field_layer_answer (p : permissions) (op : string)
    (ctx : option context) (r : jsval) :
  field_layer p op ctx = Some r → r = JBool false.
Proof.
  unfold field_layer.
  destruct ctx, (field_permissions p); try done.
  destruct (prop _ _) as [v |]; [| done].
  destruct (truthy v); [| done].
  destruct (_ && _); [congruence |]. destruct (_ && _); congruence.
Qed.

Lemma field_layer_silent (p : permissions) (op : string)
    (ctx : option context) :
  op ≠ "database.table.field.read" →
  op ≠ "database.table.field.update" →
  field_layer p op ctx = None.
Proof.
  intros H1%eqb_lit_ne H2%eqb_lit_ne. unfold field_layer. rewrite H1, H2.
  destruct ctx, (field_permissions p); try done.
  destruct (prop _ _) as [v |]; [| done].
  destruct (truthy v); [| done]. by rewrite !andb_false_r.
Qed.

(** X1. The evaluator grants nothing to a non-admin user beyond the five
    operations it answers with a flag of the snapshot (deleting an
    application, creating or deleting a table, creating or deleting a
    field): for every other operation, every snapshot and every context it
    either refuses or leaves the decision to the other managers. *)
Theorem non_admin_never_granted (p : permissions) (op : string)
    (ctx : option context) (w : Z) :
  truthy (is_admin p) = false →
  op ≠ "application.delete" →
  op ≠ "database.create_table" →
  op ≠ "database.table.delete" →
  op ≠ "database.table.field.create" →
  op ≠ "database.table.field.delete" →
  hasPermission (Some p) op ctx w = JBool false
  ∨ hasPermission (Some p) op ctx w = JNull.
Proof.
  intros Hadmin Hdel Hcreate Hdrop Hfc Hfd. unfold hasPermission.
  rewrite Hadmin. destruct (is_denied p op); [by left |].
  destruct (workspace_layer p op) as [r |] eqn:Hws.
  { left. by apply (workspace_layer_answer p op). }
  rewrite (database_layer_other_ops p op ctx Hcreate Hdrop).
  destruct (table_layer p op ctx) as [r |] eqn:Htable.
  { left. by apply (table_layer_answer p op ctx). }
  destruct (field_layer p op ctx) as [r |] eqn:Hfield; [| by right].
  left. by apply (field_layer_answer p op ctx).
Qed.

(** X2. For a non-admin user and an operation that is not on the
    deny-list, updating a table and creating or updating a row are decided
    by the table record alone: the answer is [false] when the context
    designates (by [table_id], else by [id]) a table whose record has the
    level ['read_only'], and [null] in every other case, whatever the
    collaboration and field records say. *)
Theorem table_write_operations (p : permissions) (op : string)
    (ctx : option context) (w : Z) :
  truthy (is_admin p) = false →
  is_denied p op = false →
  op = "database.table.update" ∨ op = "database.table.row.create"
  ∨ op = "database.table.row.update" →
  let record :=
    c ← ctx; perms ← table_permissions p;
    prop perms (or_id (table_id c) (id c)) in
  hasPermission (Some p) op ctx w =
    match record with
    | Some tablePerm =>
        if is_str (permission_level tablePerm) "read_only" then JBool false
        else JNull
    | None => JNull
    end.
Proof.
  intros Hadmin Hdeny Hop. cbv zeta. unfold hasPermission.
  rewrite Hadmin, Hdeny.
  rewrite workspace_layer_silent, database_layer_other_ops, field_layer_silent
    by (destruct Hop as [-> | [-> | ->]]; discriminate).
  unfold table_layer.
  destruct ctx as [c |]; simpl; [| done].
  destruct (table_permissions p) as [perms |]; simpl; [| done].
  destruct (prop perms _) as [tp |]; [| done].
  destruct Hop as [-> | [-> | ->]]; simpl;
    by destruct (is_str (permission_level tp) "read_only").
Qed.

(** X3. For a non-admin user, reading and updating a field are decided by
    the field record alone: reading is refused exactly when the context
    designates (by [field_id], else by [id]) a field recorded as
    ['hidden'], updating exactly when it is recorded as ['hidden'] or
    ['read_only']; otherwise the answer is [null]. Table and
    collaboration records play no part. *)
Theorem field_read_update (p : permissions) (ctx : option context) (w : Z) :
  truthy (is_admin p) = false →
  let level :=
    c ← ctx; perms ← field_permissions p;
    prop perms (or_id (field_id c) (id c)) in
  let hidden := from_option (λ v, is_str v "hidden") false level in
  let read_only := from_option (λ v, is_str v "read_only") false level in
  (is_denied p "database.table.field.read" = false →
   hasPermission (Some p) "database.table.field.read" ctx w
   = if hidden then JBool false else JNull)
  ∧ (is_denied p "database.table.field.update" = false →
     hasPermission (Some p) "database.table.field.update" ctx w
     = if hidden || read_only then JBool false else JNull).
Proof.
  intros Hadmin. cbv zeta. split; intros Hdeny; unfold hasPermission;
    rewrite Hadmin, Hdeny;
    rewrite workspace_layer_silent, database_layer_other_ops,
      table_layer_silent by discriminate;
    unfold field_layer;
    (destruct ctx as [c |]; simpl; [| done]);
    (destruct (field_permissions p) as [perms |]; simpl; [| done]);
    (destruct (prop perms _) as [v |]; simpl; [| done]);
    destruct v as [| | b | n | s]; simpl; try done;
    try (by destruct b); try (by destruct (Z.eqb n 0)).
  - destruct (String.eqb s "") eqn:Hs; simpl.
    + apply String.eqb_eq in Hs as ->. done.
    + rewrite andb_true_r, andb_false_r.
      by destruct (String.eqb s "hidden").
  - destruct (String.eqb s "") eqn:Hs; simpl.
    + apply String.eqb_eq in Hs as ->. done.
    + rewrite andb_false_r, andb_true_r, orb_comm.
      by destruct (_ || _).
Qed.

(** X4. For a non-admin user and an operation that is not on the
    deny-list, ['application.delete'] is answered with the
    [can_delete_database] flag of the workspace structure, whatever the
    context; without a workspace structure the answer is [null]. *)
Theorem application_delete (p : permissions) (ctx : option context)
    (w : Z) :
  truthy (is_admin p) = false →
  is_denied p "application.delete" = false →
  hasPermission (Some p) "application.delete" ctx w =
    match workspace_structure p with
    | Some ws => can_delete_database ws
    | None => JNull
    end.
Proof.
  intros Hadmin Hdeny. unfold hasPermission. rewrite Hadmin, Hdeny.
  unfold workspace_layer.
  destruct (workspace_structure p); [done |].
  by rewrite database_layer_other_ops, table_layer_silent,
    field_layer_silent by discriminate.
Qed.

(** X5. For a non-admin user and an operation that is not on the
    deny-list, creating and deleting a field are answered with the flags
    [can_create_field] and [can_delete_field] of the record of the table
    that the context designates (by [table_id], else by [id]); without
    such a record the answer is [null]. *)
Theorem field_create_delete (p : permissions) (ctx : option context)
    (w : Z) :
  truthy (is_admin p) = false →
  let record :=
    c ← ctx; perms ← table_permissions p;
    prop perms (or_id (table_id c) (id c)) in
  (is_denied p "database.table.field.create" = false →
   hasPermission (Some p) "database.table.field.create" ctx w
   = from_option can_create_field JNull record)
  ∧ (is_denied p "database.table.field.delete" = false →
     hasPermission (Some p) "database.table.field.delete" ctx w
     = from_option can_delete_field JNull record).
Proof.
  intros Hadmin. cbv zeta. split; intros Hdeny; unfold hasPermission;
    rewrite Hadmin, Hdeny;
    rewrite workspace_layer_silent, database_layer_other_ops,
      field_layer_silent by discriminate;
    unfold table_layer;
    (destruct ctx as [c |]; simpl; [| done]);
    (destruct (table_permissions p) as [perms |]; simpl; [| done]);
    by destruct (prop perms _).
Qed.

(** X6. Creating and deleting a table are only decided for a context and
    a snapshot that has a [database_collaborations] map: without a
    context, or without the map, a non-admin user gets [null] for an
    operation that is not on the deny-list, even when the workspace flag
    allows it. *)
Theorem table_create_delete_undecided (p : permissions) (op : string)
    (ctx : option context) (w : Z) :
  truthy (is_admin p) = false →
  is_denied p op = false →
  op = "database.create_table" ∨ op = "database.table.delete" →
  ctx = None ∨ database_collaborations p = None →
  hasPermission (Some p) op ctx w = JNull.
Proof.
  intros Hadmin Hdeny Hop Hmissing. unfold hasPermission.
  rewrite Hadmin, Hdeny.
  rewrite workspace_layer_silent, table_layer_silent, field_layer_silent
    by (destruct Hop as [-> | ->]; discriminate).
  unfold database_layer.
  destruct Hmissing as [-> | Hnone]; [done |].
  rewrite Hnone. by destruct ctx.
Qed.

End EvaluatorExtras.

(** * Properties of the sidebar *)

Module SidebarExtras.
Import Js PermissionManager Sidebar SidebarList.

(** X7. Once the permissions of the workspace are loaded and carry a
    snapshot under ['access_control'], a non-admin user sees a database in
    the sidebar exactly when the snapshot has a collaboration record for
    it with at least one accessible table; a snapshot without a
    collaboration map hides every database. *)
Theorem hasAccessToDatabase_non_admin (sw : workspace)
    (entries : list manager_entry) (e : manager_entry) (p : permissions)
    (D : Z) :
  permissionsLoaded sw = true →
  ws_permissions sw = Some entries →
  find_access_control entries = Some e →
  entry_permissions e = Some p →
  truthy (is_admin p) = false →
  truthy (hasAccessToDatabase (Some sw) D) = true
  ↔ ∃ collabs collab tables,
      database_collaborations p = Some collabs
      ∧ collabs !! D = Some collab
      ∧ accessible_tables collab = Some tables
      ∧ tables ≠ [].
Proof.
  intros Hloaded Hperms Hfind He Hadmin.
  unfold hasAccessToDatabase. rewrite Hloaded, Hperms. simpl.
  destruct entries as [| e0 entries]; [discriminate |].
  rewrite Hfind, He, Hadmin.
  destruct (database_collaborations p) as [collabs |]; simpl.
  - destruct (collabs !! D) as [collab |] eqn:HD; simpl.
    + destruct (accessible_tables collab) as [tables |] eqn:Htables; simpl.
      * split.
        -- intros Hlen. exists collabs, collab, tables.
           repeat split; try done. intros ->. discriminate.
        -- intros (cs & cl & ts & Hcs & Hcl & Hts & Hne). simplify_eq.
           match goal with H : ?t ≠ [] |- _ => by destruct t end.
      * split; [done |].
        intros (cs & cl & ts & Hcs & Hcl & Hts & Hne). simplify_eq.
    + split; [done |].
      intros (cs & cl & ts & Hcs & Hcl & Hts & Hne). simplify_eq.
  - split; [done |]. by intros (cs & cl & ts & Hcs & _).
Qed.

(** Insertion keeps the elements and the order. *)

Lemma insert_by_order_perm (a : application) (l : list application) :
  insert_by_order a l ≡ₚ a :: l.
Proof.
  induction l as [| b l IH]; simpl; [done |].
  destruct (Z.leb (app_order a) (app_order b)); [done |].
  rewrite IH. apply Permutation_swap.
Qed.

Lemma sort_by_order_perm (l : list application) : sort_by_order l ≡ₚ l.
Proof.
  induction l as [| a l IH]; simpl; [done |].
  by rewrite insert_by_order_perm, IH.
Qed.

Lemma insert_by_order_sorted (a : application) (l : list application) :
  StronglySorted by_order l → StronglySorted by_order (insert_by_order a l).
Proof.
  induction 1 as [| b l Hsorted IH Hb]; simpl.
  - repeat constructor.
  - destruct (Z.leb_spec (app_order a) (app_order b)) as [Hle | Hlt].
    + constructor; [by constructor |].
      constructor; [done |].
      eapply Forall_impl; [exact Hb |]. unfold by_order. intros; lia.
    + constructor; [done |].
      rewrite insert_by_order_perm. constructor; [| done].
      unfold by_order. lia.
Qed.

Lemma sort_by_order_sorted (l : list application) :
  StronglySorted by_order (sort_by_order l).
Proof.
  induction l as [| a l IH]; simpl; [constructor |].
  by apply insert_by_order_sorted.
Qed.

(** X8. A group of the sidebar lists, in ascending [order], exactly the
    applications of the selected workspace that have the type of the
    group, that the application type declares visible and, for the type
    ['database'], for which [hasAccessToDatabase] gives a truthy answer:
    none is lost, duplicated or added. *)
Theorem group_applications_listing (isVisible : application → bool)
    (selectedId : Z) (sw : workspace) (type : string)
    (applications : list application) :
  let group := group_applications isVisible selectedId sw type applications in
  StronglySorted by_order group
  ∧ group ≡ₚ
      List.filter (is_listed isVisible selectedId sw type) applications
  ∧ ∀ a, a ∈ group
      ↔ a ∈ applications
        ∧ app_workspace a = selectedId
        ∧ app_type a = type
        ∧ isVisible a = true
        ∧ (type = "database" →
           truthy (hasAccessToDatabase (Some sw) (app_id a)) = true).
Proof.
  cbv zeta. unfold group_applications.
  split; [apply sort_by_order_sorted |].
  split; [apply sort_by_order_perm |].
  intros a. rewrite sort_by_order_perm.
  rewrite list_elem_of_In, filter_In, <- list_elem_of_In.
  unfold is_listed.
  set (acc := truthy (hasAccessToDatabase (Some sw) (app_id a))).
  destruct (Z.eqb_spec (app_workspace a) selectedId) as [Hw | Hw];
    destruct (String.eqb_spec (app_type a) type) as [Ht | Ht];
    destruct (isVisible a) eqn:Hv; simpl;
    try (split; [by intros [_ ?] | intros (_ & ? & ? & ? & _); congruence]).
  destruct (String.eqb_spec (app_type a) "database") as [Hd | Hd].
  - split; [intros [? ?]; repeat split; done |].
    intros (? & _ & _ & _ & Hacc). split; [done |]. apply Hacc. congruence.
  - split; [intros [? _]; repeat split; try done; congruence |].
    by intros (? & _).
Qed.

End SidebarExtras.

(** * Further properties of cache keys *)

Module KeyExtras.
Import Key KeyFacts.

Lemma append_cancel (a x y : string) : a +:+ x = a +:+ y → x = y.
Proof. induction a as [| ch a IH]; simpl; [done |]. intros [= ?]. auto. Qed.

Lemma split_colon_free (s : string) :
  colon_free s = true → split_colon s = [s].
Proof.
  induction s as [| ch s IH]; simpl; [done |].
  intros [Hch Hs]%andb_prop. apply negb_true_iff in Hch.
  by rewrite Hch, (IH Hs).
Qed.

(** X9. For parameters whose object type holds no colon and whose ids
    are safe integers, decoding the generated key gives back the workspace
    id, the user id, the object type and the object id it was generated
    from; the operation comes back whole when it holds no colon, and cut
    at its first colon otherwise. *)
Theorem parseKey_round_trip (p : params) :
  safe_params p →
  let parsed := _parseKey (_generateKey p) in
  p_workspaceId parsed = Int (workspaceId p)
  ∧ p_userId parsed = Int (userId p)
  ∧ p_objectType parsed = Some (objectType p)
  ∧ p_objectId parsed = Int (objectId p)
  ∧ p_operation parsed = head (split_colon (operation p))
  ∧ (colon_free (operation p) = true →
     p_operation parsed = Some (operation p)).
Proof.
  intros Hsafe. cbv zeta.
  destruct (parseKey_generateKey p Hsafe) as (Hty & Hid & Hws & Hu).
  destruct Hsafe as [Hp _].
  repeat split; try done.
  - unfold _parseKey. rewrite (split_generateKey p Hp). simpl.
    by destruct (split_colon (operation p)).
  - intros Hop. unfold _parseKey. rewrite (split_generateKey p Hp). simpl.
    by rewrite (split_colon_free _ Hop).
Qed.

(** X10. Two well-formed parameter objects that generate the same key are
    equal: distinct (workspace, user, object type, object id, operation)
    tuples never share a cache entry. *)
Theorem generateKey_injective (p q : params) :
  well_formed p → well_formed q →
  _generateKey p = _generateKey q → p = q.
Proof.
  intros Hp Hq Hkey.
  assert (Hsplit : split_colon (_generateKey p)
                   = split_colon (_generateKey q)) by congruence.
  rewrite (split_generateKey p Hp), (split_generateKey q Hq) in Hsplit.
  injection Hsplit as Ews Eu Ety Eid _.
  apply string_of_Z_inj in Ews, Eu, Eid.
  unfold _generateKey in Hkey. rewrite Ety, Eid, Ews, Eu in Hkey.
  repeat (apply append_cancel in Hkey).
  destruct p, q. simpl in *. by subst.
Qed.

End KeyExtras.

(** * Further properties of the permission cache *)

Module CacheExtras.
Import Key KeyFacts PermissionCache CacheFacts.

Section Methods.
Context {V : Type}.
Implicit Types (c : t V) (m : list (string * entry V))
  (order : list string) (key k : string).

(** *** The map operations *)

Lemma state_eq c1 c2 :
  ttl c1 = ttl c2 → maxSize c1 = maxSize c2 → cache c1 = cache c2 →
  accessOrder c1 = accessOrder c2 → c1 = c2.
Proof. destruct c1, c2. simpl. by intros -> -> -> ->. Qed.

Lemma map_get_map_delete_ne key k m :
  k ≠ key → map_get k (map_delete key m) = map_get k m.
Proof.
  intros Hne. unfold map_delete. induction m as [| [k' e] m IH]; [done |].
  rewrite filter_cons. simpl.
  destruct (decide (k' ≠ key)) as [Hk' | Hk']; simpl.
  - by rewrite IH.
  - apply dec_stable in Hk'.
    destruct (decide (k' = k)); [congruence | done].
Qed.

Lemma map_get_map_set_ne key k (e : entry V) m :
  k ≠ key → map_get k (map_set key e m) = map_get k m.
Proof.
  intros Hne. induction m as [| [k' e'] m IH]; simpl.
  - destruct (decide (key = k)); [congruence | done].
  - destruct (decide (k' = key)) as [-> | Hk']; simpl.
    + destruct (decide (key = k)); [congruence | done].
    + by rewrite IH.
Qed.

Lemma map_get_None key m : key ∉ keys m → map_get key m = None.
Proof.
  unfold keys. induction m as [| [k e] m IH]; simpl; [done |].
  intros [Hk Hm]%not_elem_of_cons.
  destruct (decide (k = key)); [congruence | auto].
Qed.

(** In a map with one entry per key, [get] finds an entry exactly when it
    is in the list. *)
Lemma map_get_elem_of key (e : entry V) m :
  NoDup (keys m) → map_get key m = Some e ↔ (key, e) ∈ m.
Proof.
  unfold keys. induction m as [| [k e'] m IH]; simpl.
  - intros _. split; [done | by intros ?%elem_of_nil].
  - intros [Hk Hm]%NoDup_cons. rewrite elem_of_cons.
    destruct (decide (k = key)) as [-> | Hne].
    + split; [intros [= ->]; by left |].
      intros [[= ->] | Hin]; [done |].
      exfalso. apply Hk. by apply (list_elem_of_fmap_2 fst) in Hin.
    + rewrite (IH Hm). split; [by right |].
      intros [[= ? ?] | ?]; [congruence | done].
Qed.

Lemma map_get_filter (P : string * entry V → Prop)
    `{!∀ kv, Decision (P kv)} key m :
  NoDup (keys m) →
  map_get key (filter P m)
  = e ← map_get key m; if decide (P (key, e)) then Some e else None.
Proof.
  unfold keys. induction m as [| [k e] m IH]; [done |].
  rewrite fmap_cons. intros [Hk Hm]%NoDup_cons. rewrite filter_cons. simpl.
  destruct (decide (k = key)) as [-> | Hne]; simpl.
  - destruct (decide (P (key, e))); simpl.
    + by destruct (decide (key = key)).
    + apply map_get_None. unfold keys.
      intros (kv & Hkv & [_ Hin]%list_elem_of_filter)%list_elem_of_fmap.
      apply Hk. rewrite Hkv. by apply (list_elem_of_fmap_2 fst) in Hin.
  - destruct (decide (P (k, e))); simpl.
    + destruct (decide (k = key)); [congruence | by apply IH].
    + by apply IH.
Qed.

Lemma length_map_delete key m :
  NoDup (keys m) → key ∈ keys m →
  S (length (map_delete key m)) = length m.
Proof.
  unfold keys, map_delete. induction m as [| [k e] m IH]; simpl.
  - by intros _ ?%elem_of_nil.
  - intros [Hk Hm]%NoDup_cons Hin. rewrite filter_cons. simpl.
    destruct (decide (k ≠ key)) as [Hne | Heq]; simpl.
    + f_equal. apply IH; [done |].
      apply elem_of_cons in Hin as [? | ?]; [congruence | done].
    + f_equal. apply dec_stable in Heq. subst k. f_equal.
      apply filter_all. intros [k' e'] Hin' Heq. simpl in Heq. subst k'.
      apply Hk.
      by apply (list_elem_of_fmap_2 fst) in Hin'.
Qed.

Lemma length_map_set key (e : entry V) m :
  (length (map_set key e m) <= S (length m))%nat.
Proof.
  induction m as [| [k e'] m IH]; simpl; [lia |].
  destruct (decide (k = key)); simpl; lia.
Qed.

(** *** The size of the map *)

(** The second loop of [_cleanup] stops under the limit, or on an empty
    map. *)
Lemma evict_lru_bound limit m order :
  NoDup order → (∀ k, k ∈ order ↔ k ∈ keys m) →
  (Z.of_nat (length (evict_lru limit m order).1) <= Z.max limit 0)%Z.
Proof.
  revert m. induction order as [| oldest rest IH]; intros m Ho Hsame; simpl.
  - destruct m as [| [k e] m]; simpl; [lia |].
    exfalso. apply (elem_of_nil k), Hsame. unfold keys. simpl. by left.
  - destruct (Z.ltb_spec limit (Z.of_nat (length m))); simpl; [| lia].
    apply NoDup_cons in Ho as [Hnotin Hrest].
    apply IH; [done |].
    intros k. rewrite keys_map_delete, list_elem_of_filter.
    rewrite <- Hsame, elem_of_cons.
    split; [| intros [? [? | ?]]; done].
    intros Hk. split; [| by right]. by intros ->.
Qed.

Lemma cleanup_bound now c :
  cache_inv c →
  (Z.of_nat (length (cache (_cleanup now c))) <= Z.max (maxSize c) 0)%Z.
Proof.
  intros Hinv. unfold _cleanup.
  destruct (cleanup_expired_inv now c Hinv) as ((Hm & Ho & Hsame) & _ & Hmax).
  pose proof (evict_lru_bound (maxSize (cleanup_expired now c)) _ _ Ho Hsame)
    as Hbound.
  rewrite <- Hmax.
  by destruct (evict_lru _ _ _).
Qed.

(** X11. In every state of a cache object the map holds one entry per
    key, the access order lists exactly the keys of the map, each once,
    and the map holds at most [maxSize + 1] entries (one entry when
    [maxSize] is negative): the limit can be exceeded by one entry, never
    by more. *)
Theorem reachable_bounded c :
  reachable c →
  NoDup (keys (cache c))
  ∧ NoDup (accessOrder c)
  ∧ (∀ k, k ∈ accessOrder c ↔ k ∈ keys (cache c))
  ∧ (size c <= Z.max (maxSize c) 0 + 1)%Z.
Proof.
  intros Hreach.
  destruct (reachable_inv c Hreach) as (Hm & Ho & Hsame).
  split; [done |]. split; [done |]. split; [done |].
  clear Hm Ho Hsame. unfold size.
  induction Hreach as [o | now p c Hc IH | n1 n2 p v c Hc IH | p c Hc IH
                       | test c Hc IH | c Hc IH].
  - simpl. lia.
  - unfold get. destruct (map_get _ _) as [e |]; [| done].
    destruct (is_expired now c e); simpl; [| done].
    pose proof (length_filter (λ kv : string * entry V, kv.1 ≠ _generateKey p)
                  (cache c)).
    unfold map_delete. lia.
  - simpl. rewrite cleanup_maxSize.
    pose proof (cleanup_bound n1 c (reachable_inv c Hc)).
    pose proof (length_map_set (_generateKey p)
                  {| value := v; timestamp := n2 |} (cache (_cleanup n1 c))).
    lia.
  - simpl.
    pose proof (length_filter (λ kv : string * entry V, kv.1 ≠ _generateKey p)
                  (cache c)).
    unfold map_delete. lia.
  - destruct (invalidate_where_filter test c (reachable_inv c Hc))
      as (_ & _ & Hmax & Hcache & _).
    rewrite Hmax, Hcache.
    pose proof (length_filter (λ kv : string * entry V, test kv.1 = false)
                  (cache c)).
    lia.
  - simpl. lia.
Qed.

(** *** [delete] *)

(** X12. After [delete(k)] a [get(k)] misses, and a [get] of any other
    key answers as it did before the deletion. *)
Theorem delete_then_get c (p p' : params) (now : Z) :
  (get now p (delete p c)).1 = None
  ∧ (_generateKey p' ≠ _generateKey p →
     (get now p' (delete p c)).1 = (get now p' c).1).
Proof.
  split.
  - unfold get, delete. simpl. by rewrite map_get_map_delete.
  - intros Hne. unfold get, delete. simpl.
    rewrite (map_get_map_delete_ne _ _ _ Hne).
    destruct (map_get _ _) as [e |]; [| done].
    unfold is_expired. simpl. by destruct (Z.ltb _ _).
Qed.

(** *** Lifetime of an entry *)

(** A hit: the value, and the key moved to the end of the access order. *)
Lemma get_hit now (p : params) c (e : entry V) :
  map_get (_generateKey p) (cache c) = Some e →
  is_expired now c e = false →
  get now p c
  = (Some (value e),
     {| ttl := ttl c; maxSize := maxSize c; cache := cache c;
        accessOrder := _updateAccessOrder (_generateKey p) (accessOrder c) |}).
Proof. intros Hget Hfresh. unfold get. by rewrite Hget, Hfresh. Qed.

Lemma is_expired_set now (p : params) (v : V) c cleanup_now set_now :
  is_expired now (set cleanup_now set_now p v c)
    {| value := v; timestamp := set_now |}
  = Z.ltb (ttl c) (now - set_now).
Proof. unfold is_expired. simpl. by rewrite cleanup_ttl. Qed.

(** X13. Reading does not prolong the life of an entry: a value stored at
    [set_now] is returned by a [get] at most [ttl] later, and, whatever
    was read in between, a [get] of the key more than [ttl] after
    [set_now] misses. *)
Theorem get_does_not_refresh c (p : params) (v : V)
    (cleanup_now set_now first_get second_get : Z) :
  (first_get - set_now <= ttl c)%Z →
  (ttl c < second_get - set_now)%Z →
  let c1 := set cleanup_now set_now p v c in
  (get first_get p c1).1 = Some v
  ∧ (get second_get p (get first_get p c1).2).1 = None.
Proof.
  intros Hin Hout. cbv zeta. split; [by apply get_set_within |].
  set (c1 := set cleanup_now set_now p v c).
  set (e := {| value := v; timestamp := set_now |}).
  assert (Hget : map_get (_generateKey p) (cache c1) = Some e)
    by apply map_get_map_set.
  assert (Hfresh : is_expired first_get c1 e = false).
  { unfold c1, e. rewrite is_expired_set. by apply Z.ltb_ge. }
  assert (Hstale : is_expired second_get c1 e = true).
  { unfold c1, e. rewrite is_expired_set. by apply Z.ltb_lt. }
  clearbody c1 e.
  rewrite (get_hit first_get p c1 e Hget Hfresh). simpl.
  unfold get. simpl. rewrite Hget.
  unfold is_expired in *. simpl. by rewrite Hstale.
Qed.

(** X14. A negative TTL is truthy, so the constructor keeps it, and it
    does switch the cache off: in a cache built with it, a [get] at or
    after the time of the [set] misses. *)
Theorem negative_ttl_disables (o : options) (n : Z) c (p : params) (v : V)
    (cleanup_now set_now get_now : Z) :
  opt_ttl o = Some n → (n < 0)%Z →
  cache_inv c → ttl c = ttl (constructor o : t V) →
  (set_now <= get_now)%Z →
  ttl (constructor o : t V) = n
  ∧ (get get_now p (set cleanup_now set_now p v c)).1 = None.
Proof.
  intros Ho Hn Hinv Httl Hclock.
  assert (Hkept : ttl (constructor o : t V) = n).
  { simpl. rewrite Ho. simpl. destruct (Z.eqb_spec n 0); [lia | done]. }
  split; [done |].
  apply get_set_expired; [done |]. rewrite Httl, Hkept. lia.
Qed.

(** *** Eviction *)

Lemma map_get_is_Some key m : key ∈ keys m → is_Some (map_get key m).
Proof.
  unfold keys. induction m as [| [k e] m IH]; simpl.
  - by intros ?%elem_of_nil.
  - intros Hin. destruct (decide (k = key)); [by eexists |].
    apply IH. apply elem_of_cons in Hin as [? | ?]; [congruence | done].
Qed.

(** [set] on a map that is one entry over its limit, nothing having
    expired: the oldest key of the access order goes, the new one is
    appended. *)
Lemma set_over_limit c (p : params) (v : V) (cleanup_now now : Z)
    (oldest : string) (rest : list string) :
  cache_inv c →
  accessOrder c = oldest :: rest →
  (∀ kv, kv ∈ cache c → is_expired cleanup_now c kv.2 = false) →
  Z.of_nat (length (cache c)) = (maxSize c + 1)%Z →
  _generateKey p ∉ keys (cache c) →
  set cleanup_now now p v c
  = {| ttl := ttl c; maxSize := maxSize c;
       cache := (map_delete oldest (cache c)
                 ++ [(_generateKey p, {| value := v; timestamp := now |})])%list;
       accessOrder := (rest ++ [_generateKey p])%list |}.
Proof.
  intros (Hm & Ho & Hsame) Horder Hfresh Hlen Hkey.
  assert (Holdest : oldest ∈ keys (cache c)).
  { apply Hsame. rewrite Horder. by left. }
  pose proof (length_map_delete oldest (cache c) Hm Holdest) as Hdel.
  assert (Hclean : _cleanup cleanup_now c
                   = {| ttl := ttl c; maxSize := maxSize c;
                        cache := map_delete oldest (cache c);
                        accessOrder := rest |}).
  { unfold _cleanup. rewrite (cleanup_expired_none _ _ Hfresh), Horder.
    simpl. rewrite (proj2 (Z.ltb_lt (maxSize c) _)) by lia.
    rewrite evict_lru_within by lia. done. }
  unfold set. rewrite Hclean. simpl. f_equal.
  - apply map_set_new. rewrite keys_map_delete.
    by intros [_ ?]%list_elem_of_filter.
  - unfold _updateAccessOrder. rewrite remove_key_notin; [done |].
    intros Hin. apply Hkey, Hsame. rewrite Horder. by right.
Qed.

(** X15. When the map is one entry over its limit and nothing has
    expired, [set] of a new key evicts exactly the least recently used
    key, the head of the access order: every other entry stays, the new
    key becomes the most recently used, and the map again holds
    [maxSize + 1] entries. *)
Theorem set_evicts_least_recently_used c (p : params) (v : V)
    (cleanup_now now : Z) (oldest : string) (rest : list string) :
  cache_inv c →
  accessOrder c = oldest :: rest →
  (∀ kv, kv ∈ cache c → is_expired cleanup_now c kv.2 = false) →
  Z.of_nat (length (cache c)) = (maxSize c + 1)%Z →
  _generateKey p ∉ keys (cache c) →
  let c' := set cleanup_now now p v c in
  cache c'
  = (map_delete oldest (cache c)
     ++ [(_generateKey p, {| value := v; timestamp := now |})])%list
  ∧ accessOrder c' = (rest ++ [_generateKey p])%list
  ∧ (oldest ∉ keys (cache c'))
  ∧ size c' = (maxSize c + 1)%Z.
Proof.
  intros Hinv Horder Hfresh Hlen Hkey. cbv zeta.
  rewrite (set_over_limit c p v cleanup_now now oldest rest) by done.
  simpl. split; [done |]. split; [done |].
  assert (Holdest : oldest ∈ keys (cache c)).
  { apply Hinv. rewrite Horder. by left. }
  pose proof (length_map_delete oldest (cache c) (proj1 Hinv) Holdest).
  split.
  - unfold keys. rewrite fmap_app. simpl.
    fold (keys (map_delete oldest (cache c))). rewrite keys_map_delete.
    intros Hin. apply elem_of_app in Hin as [Hin | Hin].
    + by apply list_elem_of_filter in Hin as [? _].
    + apply list_elem_of_singleton in Hin. apply Hkey. by rewrite <- Hin.
  - unfold size. simpl. rewrite length_app. simpl. lia.
Qed.

(** X16. A key that has just been read is not the next one to go: when
    the map is one entry over its limit and nothing has expired, a hit on
    the least recently used key followed by the [set] of a new key evicts
    the second key of the access order and keeps the one that was read. *)
Theorem read_key_survives_eviction c (p1 p : params) (v : V)
    (get_now cleanup_now now : Z) (k2 : string) (rest : list string) :
  cache_inv c →
  accessOrder c = _generateKey p1 :: k2 :: rest →
  (∀ kv, kv ∈ cache c → is_expired get_now c kv.2 = false) →
  (∀ kv, kv ∈ cache c → is_expired cleanup_now c kv.2 = false) →
  Z.of_nat (length (cache c)) = (maxSize c + 1)%Z →
  _generateKey p ∉ keys (cache c) →
  let c' := set cleanup_now now p v (get get_now p1 c).2 in
  _generateKey p1 ∈ keys (cache c')
  ∧ (k2 ∉ keys (cache c'))
  ∧ accessOrder c' = (rest ++ [_generateKey p1; _generateKey p])%list.
Proof.
  intros Hinv Horder Hget Hclean Hlen Hkey. cbv zeta.
  pose proof Hinv as (Hm & Ho & Hsame).
  assert (Hk1 : _generateKey p1 ∈ keys (cache c)).
  { apply Hsame. rewrite Horder. by left. }
  assert (Hne : k2 ≠ _generateKey p1).
  { rewrite Horder in Ho. apply NoDup_cons in Ho as [Hnotin _].
    intros ->. apply Hnotin. by left. }
  destruct (map_get_is_Some _ _ Hk1) as [e He].
  assert (Hfresh : is_expired get_now c e = false).
  { apply (Hget (_generateKey p1, e)). by apply map_get_elem_of. }
  pose proof (get_inv get_now p1 c Hinv) as Hinv1.
  rewrite (get_hit get_now p1 c e He Hfresh) in Hinv1 |- *.
  cbn [snd] in Hinv1 |- *.
  set (c1 := {| ttl := ttl c; maxSize := maxSize c; cache := cache c;
                accessOrder :=
                  _updateAccessOrder (_generateKey p1) (accessOrder c) |})
    in *.
  assert (Horder1 : accessOrder c1
                    = k2 :: (rest ++ [_generateKey p1])%list).
  { unfold c1, _updateAccessOrder. simpl. rewrite Horder. simpl.
    by destruct (decide (_generateKey p1 = _generateKey p1)). }
  rewrite (set_over_limit c1 p v cleanup_now now k2
             (rest ++ [_generateKey p1])%list Hinv1 Horder1 Hclean Hlen Hkey).
  cbn [cache accessOrder]. rewrite <- app_assoc.
  split; [| split; [| done]].
  - unfold keys. rewrite fmap_app. apply elem_of_app. left.
    fold (keys (map_delete k2 (cache c1))). rewrite keys_map_delete.
    apply list_elem_of_filter. split; [congruence | done].
  - unfold keys. rewrite fmap_app.
    fold (keys (map_delete k2 (cache c1))). rewrite keys_map_delete.
    intros Hin. apply elem_of_app in Hin as [Hin | Hin].
    + by apply list_elem_of_filter in Hin as [? _].
    + apply list_elem_of_singleton in Hin. simpl in Hin.
      apply Hkey. rewrite <- Hin. apply Hsame. rewrite Horder.
      right. by left.
Qed.

(** *** [set] and the other keys *)

Lemma cleanup_expired_cache now c :
  cache_inv c →
  cache (cleanup_expired now c)
  = filter (λ kv, is_expired now c kv.2 = false) (cache c).
Proof.
  intros Hinv. rewrite cleanup_expired_fold.
  destruct (fold_delete_key (expired_keys now c (cache c)) c Hinv)
    as (_ & _ & _ & -> & _).
  apply filter_ext_in. intros [k e] Hin. simpl.
  unfold expired_keys. rewrite list_elem_of_fmap. split.
  - intros Hno. destruct (is_expired now c e) eqn:He; [| done].
    exfalso. apply Hno. exists (k, e). split; [done |].
    rewrite list_elem_of_In, filter_In, <- list_elem_of_In. by split.
  - intros Hfresh ([k' e'] & Hk & Hin'). simpl in Hk. subst k'.
    rewrite list_elem_of_In, filter_In, <- list_elem_of_In in Hin'.
    destruct Hin' as [Hin' He']. simpl in He'.
    apply (map_get_elem_of _ _ _ (proj1 Hinv)) in Hin, Hin'.
    congruence.
Qed.

Lemma cleanup_no_eviction now c :
  cache_inv c →
  (Z.of_nat (length (cache c)) <= maxSize c)%Z →
  cache (_cleanup now c)
  = filter (λ kv, is_expired now c kv.2 = false) (cache c).
Proof.
  intros Hinv Hlen. unfold _cleanup.
  destruct (cleanup_expired_inv now c Hinv) as (_ & _ & Hmax).
  pose proof (cleanup_expired_cache now c Hinv) as Hcache.
  rewrite evict_lru_within; [done |].
  rewrite Hmax, Hcache.
  pose proof (length_filter
                (λ kv : string * entry V, is_expired now c kv.2 = false)
                (cache c)).
  lia.
Qed.

(** X17. A [set] that evicts nothing does not change what a later [get]
    of another key returns: when the map is within its limit and the
    clock does not run backwards, the answer for every other key is the
    one the cache would have given without the [set]. *)
Theorem set_leaves_other_keys c (p p' : params) (v : V)
    (cleanup_now set_now get_now : Z) :
  cache_inv c →
  (Z.of_nat (length (cache c)) <= maxSize c)%Z →
  (cleanup_now <= get_now)%Z →
  _generateKey p' ≠ _generateKey p →
  (get get_now p' (set cleanup_now set_now p v c)).1 = (get get_now p' c).1.
Proof.
  intros Hinv Hlen Hclock Hne. unfold get. simpl.
  rewrite (map_get_map_set_ne _ _ _ _ Hne).
  rewrite (cleanup_no_eviction cleanup_now c Hinv Hlen).
  rewrite (map_get_filter _ _ _ (proj1 Hinv)).
  destruct (map_get (_generateKey p') (cache c)) as [e |]; simpl; [| done].
  unfold is_expired. simpl. rewrite cleanup_ttl.
  destruct (decide (Z.ltb (ttl c) (cleanup_now - timestamp e) = false))
    as [Hfresh | Hstale]; simpl.
  - by destruct (Z.ltb (ttl c) (get_now - timestamp e)).
  - apply not_false_is_true, Z.ltb_lt in Hstale.
    by rewrite (proj2 (Z.ltb_lt (ttl c) (get_now - timestamp e))) by lia.
Qed.

(** *** The other invalidations *)

Lemma targets_generateKey (type : string) (id : Z) (p : params) :
  safe_params p →
  targets type id (_generateKey p) = true
  ↔ objectType p = type ∧ objectId p = id.
Proof.
  intros Hp. unfold targets.
  destruct (parseKey_generateKey p Hp) as (-> & -> & _).
  rewrite andb_true_iff, !bool_decide_eq_true.
  split; intros [? ?]; split; congruence.
Qed.

(** X18. For an id that is a safe integer, [invalidateByWorkspace] and
    [invalidateByUser] remove from the map and from the access order the
    keys whose workspace id, resp. user id, is the given one, and leave
    every other entry where it was; on a key generated from parameters
    whose object type holds no colon and whose ids are safe integers, the
    id read back is the one the key was generated from. *)
Theorem invalidate_by_workspace_or_user (id : Z) c
    (field : parsed → number) (of_params : params → Z)
    (method : Z → t V → t V) :
  safe_integer id →
  cache_inv c →
  (field = p_workspaceId ∧ of_params = workspaceId
   ∧ method = invalidateByWorkspace)
  ∨ (field = p_userId ∧ of_params = userId ∧ method = invalidateByUser) →
  let test := λ key, bool_decide (field (_parseKey key) = Int id) in
  (∀ p, safe_params p → test (_generateKey p) = true ↔ of_params p = id)
  ∧ cache (method id c) = filter (λ kv, test kv.1 = false) (cache c)
  ∧ accessOrder (method id c) = filter (λ k, test k = false) (accessOrder c).
Proof.
  intros _ Hinv Hwhich. cbv zeta. split.
  - intros p Hp. rewrite bool_decide_eq_true.
    destruct (parseKey_generateKey p Hp) as (_ & _ & Hws & Hu).
    destruct Hwhich as [(-> & -> & _) | (-> & -> & _)].
    + rewrite Hws. split; congruence.
    + rewrite Hu. split; congruence.
  - destruct Hwhich as [(-> & _ & ->) | (-> & _ & ->)].
    + destruct (invalidate_where_filter
                  (λ key, bool_decide (p_workspaceId (_parseKey key) = Int id))
                  c Hinv) as (_ & _ & _ & Hcache & Horder).
      done.
    + destruct (invalidate_where_filter
                  (λ key, bool_decide (p_userId (_parseKey key) = Int id))
                  c Hinv) as (_ & _ & _ & Hcache & Horder).
      done.
Qed.

(** X19. For an id that is a safe integer, [invalidateByDatabase],
    [invalidateByTable] and [invalidateByRow] remove from the map and from
    the access order the keys whose object type is ['database'],
    ['table'], resp. ['row'] and whose object id is the given one, and
    leave every other entry where it was; on a key generated from
    parameters whose object type holds no colon and whose ids are safe
    integers, these are the object type and the object id the key was
    generated from. The table id given to [invalidateByRow] plays no part:
    the entries of the row id go whatever table the row is in. *)
Theorem invalidate_by_object (id tableId : Z) c (type : string)
    (method : t V → t V) :
  safe_integer id →
  cache_inv c →
  (type = "database" ∧ method = invalidateByDatabase id)
  ∨ (type = "table" ∧ method = invalidateByTable id)
  ∨ (type = "row" ∧ method = invalidateByRow tableId id) →
  (∀ p, safe_params p →
     targets type id (_generateKey p) = true
     ↔ objectType p = type ∧ objectId p = id)
  ∧ cache (method c) = filter (λ kv, targets type id kv.1 = false) (cache c)
  ∧ accessOrder (method c)
    = filter (λ k, targets type id k = false) (accessOrder c).
Proof.
  intros _ Hinv Hwhich. split; [intros p; apply targets_generateKey |].
  destruct (invalidate_where_filter (targets type id) c Hinv)
    as (_ & _ & _ & Hcache & Horder).
  by destruct Hwhich as [[-> ->] | [[-> ->] | [-> ->]]].
Qed.

(** X20. Invalidations commute and are idempotent: the order in which a
    caller invalidates, say, by field and by user does not matter, and
    repeating an invalidation changes nothing. *)
Theorem invalidate_where_commute (test1 test2 : string → bool) c :
  cache_inv c →
  invalidate_where test1 (invalidate_where test2 c)
  = invalidate_where test2 (invalidate_where test1 c)
  ∧ invalidate_where test1 (invalidate_where test1 c)
    = invalidate_where test1 c.
Proof.
  intros Hinv.
  destruct (invalidate_where_filter test1 c Hinv)
    as (Hinv1 & Httl1 & Hmax1 & Hcache1 & Horder1).
  destruct (invalidate_where_filter test2 c Hinv)
    as (Hinv2 & Httl2 & Hmax2 & Hcache2 & Horder2).
  destruct (invalidate_where_filter test1 _ Hinv2)
    as (_ & Httl12 & Hmax12 & Hcache12 & Horder12).
  destruct (invalidate_where_filter test2 _ Hinv1)
    as (_ & Httl21 & Hmax21 & Hcache21 & Horder21).
  destruct (invalidate_where_filter test1 _ Hinv1)
    as (_ & Httl11 & Hmax11 & Hcache11 & Horder11).
  split; apply state_eq; try congruence.
  - rewrite Hcache12, Hcache21, Hcache1, Hcache2, !list_filter_filter.
    apply list_filter_iff. tauto.
  - rewrite Horder12, Horder21, Horder1, Horder2, !list_filter_filter.
    apply list_filter_iff. tauto.
  - rewrite Hcache11, Hcache1, list_filter_filter.
    apply list_filter_iff. tauto.
  - rewrite Horder11, Horder1, list_filter_filter.
    apply list_filter_iff. tauto.
Qed.

End Methods.

End CacheExtras.

(** * Properties of the store of plugin permissions *)

Module PluginPermissionsExtras.
Import PluginPermissions.

(** Reading a two-level object after one of its properties was set. *)
Lemma lookup_nested_insert {A} (m : gmap Z (gmap string A)) (w w' : Z)
    (k k' : string) (x : A) :
  (<[w := <[k := x]> (default ∅ (m !! w))]> m !! w' ≫= λ inner, inner !! k')
  = if decide (w = w' ∧ k = k') then Some x
    else m !! w' ≫= λ inner, inner !! k'.
Proof.
  destruct (decide (w = w')) as [<- | Hw].
  - rewrite lookup_insert_eq. simpl.
    destruct (decide (k = k')) as [<- | Hk].
    + rewrite lookup_insert_eq. by rewrite decide_True.
    + rewrite lookup_insert_ne by done.
      rewrite decide_False by tauto.
      destruct (m !! w); simpl; [done | apply lookup_empty].
  - rewrite lookup_insert_ne by done. by rewrite decide_False by tauto.
Qed.

Lemma getPermission_SET_PERMISSION (now : Z) (st : state) (w w' : Z)
    (k k' lvl : string) :
  getPermission (SET_PERMISSION now st w k lvl) w' k'
  = if decide (w = w' ∧ k = k') then Some lvl else getPermission st w' k'.
Proof.
  unfold getPermission, SET_PERMISSION. simpl.
  rewrite lookup_nested_insert. by destruct (decide _).
Qed.





(** X21. The store answers for the pair that was last written, and a
    write or a clearing touches nothing else: after [SET_PERMISSION] the
    getter returns the new level for that workspace and plugin and the
    old answer for every other pair; after [CLEAR_WORKSPACE_PERMISSIONS]
    it returns [undefined] for the plugins of that workspace and the old
    answer for every other workspace. *)
Theorem getPermission_after (now : Z) (st : state) (w w' : Z)
    (k k' lvl : string) :
  getPermission (SET_PERMISSION now st w k lvl) w' k'
  = (if decide (w = w' ∧ k = k') then Some lvl else getPermission st w' k')
  ∧ getPermission (CLEAR_WORKSPACE_PERMISSIONS st w) w' k'
    = (if decide (w = w') then None else getPermission st w' k')
  ∧ isLoading (CLEAR_WORKSPACE_PERMISSIONS st w) w' k'
    = (if decide (w = w') then false else isLoading st w' k').
Proof.
  split; [apply getPermission_SET_PERMISSION |].
  unfold getPermission, isLoading, CLEAR_WORKSPACE_PERMISSIONS. simpl.
  destruct (decide (w = w')) as [<- | Hw].
  - by rewrite !lookup_delete_eq.
  - by rewrite !lookup_delete_ne.
Qed.

(** X22. With a cache lifetime of 0, [fetchPermission] never answers from
    the store: as long as the clock has not gone back behind the time the
    level was stored, it waits for the request in flight, if there is
    one, and otherwise asks the server. *)
Theorem fetchPermission_never_from_cache (now : Z) (st : state) (w : Z)
    (k : string) :
  (∀ c, (permissions st !! w ≫= λ inner, inner !! k) = Some c →
        (timestamp c <= now)%Z) →
  fetchPermission now st w k
  = if isLoading st w k then wait_for_loading else from_server.
Proof.
  intros Hclock. unfold fetchPermission.
  destruct (permissions st !! w ≫= _) as [c |]; [| done].
  specialize (Hclock c eq_refl). unfold CACHE_TTL.
  by rewrite (proj2 (Z.ltb_ge (now - timestamp c) 0)) by lia.
Qed.


End PluginPermissionsExtras.

(** * Properties of the field permission service *)

Module ServiceExtras.
Import Js Key KeyFacts PermissionCache CacheFacts CacheExtras.
Import FieldPermissionsService.

(** X24. Once its requests have succeeded, [updatePermissionLevel] of the
    field permission service, called with a field id and a user id that
    are safe integers, leaves the cache as an invalidation by field
    followed by an invalidation by user would, whether the user already
    had a record for the field or not: of the entries stored for
    parameters whose object type holds no colon and whose ids are safe
    integers, none remains for the field or for the user, and every other
    one is still there. *)
Theorem updatePermissionLevel_cache {V : Type}
    (permissions : list permission_record) (fieldId user : Z) (c : t V) :
  safe_integer fieldId →
  safe_integer user →
  cache_inv c →
  user ≠ 0%Z →
  let c' := updatePermissionLevel permissions fieldId user c in
  c' = invalidateByUser user (invalidateByField fieldId c)
  ∧ ∀ p, safe_params p →
      map_get (_generateKey p) (cache c')
      = if bool_decide ((objectType p = "field" ∧ objectId p = fieldId)
                        ∨ userId p = user)
        then None
        else map_get (_generateKey p) (cache c).
Proof.
  intros _ _ Hinv Huser. cbv zeta.
  assert (Hsame : updatePermissionLevel permissions fieldId user c
                  = invalidateByUser user (invalidateByField fieldId c)).
  { unfold updatePermissionLevel, createPermission, updatePermission,
      onUserPermissionChanged, onFieldPermissionChanged.
    destruct (List.find _ permissions); [done |].
    simpl. by rewrite (proj2 (Z.eqb_neq user 0) Huser). }
  split; [done |]. rewrite Hsame. intros p Hp.
  destruct (invalidate_where_filter (targets_field fieldId) c Hinv)
    as (Hinv1 & _ & _ & Hcache1 & _).
  fold (invalidateByField fieldId c) in Hinv1, Hcache1.
  destruct (invalidate_where_filter
              (λ key, bool_decide (p_userId (_parseKey key) = Int user))
              (invalidateByField fieldId c) Hinv1)
    as (_ & _ & _ & Hcache2 & _).
  fold (invalidateByUser user (invalidateByField fieldId c)) in Hcache2.
  rewrite Hcache2, (map_get_filter _ _ _ (proj1 Hinv1)).
  rewrite Hcache1, (map_get_filter _ _ _ (proj1 Hinv)).
  pose proof (targets_field_generateKey fieldId p Hp) as Hfield.
  assert (Huser' : bool_decide
                     (p_userId (_parseKey (_generateKey p)) = Int user)
                   = bool_decide (userId p = user)).
  { destruct (parseKey_generateKey p Hp) as (_ & _ & _ & ->).
    apply bool_decide_ext. split; congruence. }
  generalize dependent (_generateKey p). intros k Hfield Huser'.
  destruct (map_get k (cache c)) as [e |]; cbn [mbind option_bind fst].
  2: { match goal with |- _ = (if ?b then _ else _) => by destruct b end. }
  rewrite Huser'.
  destruct (targets_field fieldId k); cbn [mbind option_bind].
  - rewrite decide_False by done. cbn [mbind option_bind].
    rewrite bool_decide_eq_true_2; [done |]. left. by apply Hfield.
  - rewrite decide_True by done. cbn [mbind option_bind fst].
    destruct (decide (userId p = user)) as [Heq | Hne].
    + rewrite (bool_decide_eq_true_2 (userId p = user)) by done.
      rewrite decide_False by done.
      rewrite bool_decide_eq_true_2; [done | by right].
    + rewrite (bool_decide_eq_false_2 (userId p = user)) by done.
      rewrite decide_True by done.
      rewrite bool_decide_eq_false_2; [done |].
      intros [Hf | ?]; [| done]. by apply Hfield in Hf.
Qed.

End ServiceExtras.

(** * The further properties on sample data *)

Module ExtraWitnesses.
Import Js PermissionManager Sidebar SidebarList Key KeyFacts PermissionCache.
Import CacheSamples MoreSamples CacheFacts.
Import EvaluatorExtras SidebarExtras KeyExtras CacheExtras.

(** A row update by the restricted user is refused or passed on, never
    granted. *)
Lemma non_admin_never_granted_witness :
  hasPermission (Some restricted) "database.table.row.update"
    (Some row_77) 1 = JBool false
  ∨ hasPermission (Some restricted) "database.table.row.update"
      (Some row_77) 1 = JNull.
Proof.
  apply (non_admin_never_granted restricted "database.table.row.update"
           (Some row_77) 1); [reflexivity | discriminate ..].
Defined.

(** Creating a row in the read-only table 5 is refused. *)
Lemma table_write_operations_witness :
  hasPermission (Some restricted) "database.table.row.create"
    (Some row_77) 1 = JBool false.
Proof.
  rewrite (table_write_operations restricted "database.table.row.create"
             (Some row_77) 1); [reflexivity | reflexivity | reflexivity |].
  right. left. reflexivity.
Defined.

(** Reading the hidden field 9 is refused. *)
Lemma field_read_update_witness :
  hasPermission (Some restricted) "database.table.field.read"
    (Some field_9) 1 = JBool false.
Proof.
  destruct (field_read_update restricted (Some field_9) 1 eq_refl)
    as [Hread _].
  rewrite Hread; reflexivity.
Defined.

(** Deleting an application is answered with the flag. *)
Lemma application_delete_witness :
  hasPermission (Some restricted) "application.delete" None 1 = JBool true.
Proof.
  rewrite (application_delete restricted None 1); reflexivity.
Defined.

(** Creating a field in table 5 is answered with the flag of its record. *)
Lemma field_create_delete_witness :
  hasPermission (Some restricted) "database.table.field.create"
    (Some row_77) 1 = JBool false.
Proof.
  destruct (field_create_delete restricted (Some row_77) 1 eq_refl)
    as [Hcreate _].
  rewrite Hcreate; reflexivity.
Defined.

(** Without a collaboration map the creation of a table is not decided,
    although the workspace flag allows it. *)
Lemma table_create_delete_undecided_witness :
  ws_flag restricted can_create_table = JBool true
  ∧ hasPermission (Some restricted) "database.create_table"
      (Some row_77) 1 = JNull.
Proof.
  split; [reflexivity |].
  apply (table_create_delete_undecided restricted "database.create_table"
           (Some row_77) 1).
  - reflexivity.
  - reflexivity.
  - left. reflexivity.
  - right. reflexivity.
Defined.

(** The member sees database 1. *)
Lemma hasAccessToDatabase_non_admin_witness :
  truthy (hasAccessToDatabase (Some member_workspace) 1) = true.
Proof.
  apply (hasAccessToDatabase_non_admin member_workspace
           [ {| name := "core"; entry_permissions := None |}; member_entry ]
           member_entry member 1); try reflexivity.
  exists {[ 1 := sees_table_5; 2 := sees_nothing ]}, sees_table_5, [5%Z].
  repeat split; discriminate.
Defined.

(** Of the three databases the member is shown database 1 only. *)
Lemma group_applications_listing_witness :
  group_applications (λ _, true) 40 member_workspace "database"
    some_applications
  = [ {| app_id := 1; app_workspace := 40; app_type := "database";
         app_order := 7 |} ]
  ∧ StronglySorted by_order
      (group_applications (λ _, true) 40 member_workspace "database"
         some_applications).
Proof.
  split; [reflexivity |].
  apply (group_applications_listing (λ _, true) 40 member_workspace
           "database" some_applications).
Defined.

Lemma parseKey_round_trip_witness :
  p_objectId (_parseKey (_generateKey (key_of "field" 7))) = Int 7
  ∧ p_operation (_parseKey (_generateKey (key_of "field" 7))) = Some "read".
Proof.
  destruct (parseKey_round_trip (key_of "field" 7))
    as (_ & _ & _ & Hid & _ & Hop); [by repeat split |].
  split; [exact Hid | by apply Hop].
Defined.

Lemma generateKey_injective_witness :
  _generateKey (key_of "field" 7) = "1:2:field:7:read"
  ∧ key_of "field" 7
    = {| workspaceId := 1; userId := 2; objectType := "field";
         objectId := 7; operation := "read" |}.
Proof.
  split; [reflexivity |].
  apply (generateKey_injective (key_of "field" 7)
           {| workspaceId := 1; userId := 2; objectType := "field";
              objectId := 7; operation := "read" |}); reflexivity.
Defined.

Lemma sample_reachable : reachable sample.
Proof. repeat apply reachable_set. apply reachable_new. Qed.

Lemma sample_fresh (now : Z) :
  (now <= 101)%Z →
  ∀ kv, kv ∈ cache sample → is_expired now sample kv.2 = false.
Proof.
  intros Hnow kv Hkv.
  change (cache sample) with
    [("1:2:table:7:read", {| value := true; timestamp := 1%Z |});
     ("1:2:field:7:read", {| value := false; timestamp := 2%Z |});
     ("1:2:field:8:read", {| value := true; timestamp := 3%Z |})] in Hkv.
  unfold is_expired. change (ttl sample) with 100%Z. apply Z.ltb_ge.
  repeat (apply elem_of_cons in Hkv as [-> | Hkv]); simpl; try lia.
  by apply elem_of_nil in Hkv.
Qed.

(** The sample cache, of capacity 2, holds three entries. *)
Lemma reachable_bounded_witness : (size sample <= 3)%Z.
Proof.
  apply (reachable_bounded sample sample_reachable).
Defined.

Lemma delete_then_get_witness :
  (get 4 (key_of "field" 8) (delete (key_of "field" 7) sample)).1
  = (get 4 (key_of "field" 8) sample).1.
Proof.
  apply (delete_then_get sample (key_of "field" 7) (key_of "field" 8) 4).
  discriminate.
Defined.

Lemma get_does_not_refresh_witness :
  (get 102 (key_of "row" 4)
     (get 101 (key_of "row" 4) (set 0 1 (key_of "row" 4) true sample)).2).1
  = None.
Proof.
  apply (get_does_not_refresh sample (key_of "row" 4) true 0 1 101 102);
    by vm_compute.
Defined.

Lemma negative_ttl_disables_witness :
  ttl switched_off = (-1)%Z
  ∧ (get 5 (key_of "row" 4) (set 5 5 (key_of "row" 4) true switched_off)).1
    = None.
Proof.
  apply (negative_ttl_disables
           {| opt_ttl := Some (-1)%Z; opt_maxSize := None |} (-1)
           switched_off (key_of "row" 4) true 5 5 5);
    try reflexivity; try lia.
  apply constructor_inv.
Defined.

(** A fourth key evicts the key of table 7, the oldest. *)
Lemma set_evicts_least_recently_used_witness :
  accessOrder (set 4 4 (key_of "row" 9) true sample)
  = ["1:2:field:7:read"; "1:2:field:8:read"; "1:2:row:9:read"].
Proof.
  apply (set_evicts_least_recently_used sample (key_of "row" 9) true 4 4
           "1:2:table:7:read" ["1:2:field:7:read"; "1:2:field:8:read"]).
  - apply sample_inv.
  - reflexivity.
  - apply sample_fresh. lia.
  - reflexivity.
  - apply (bool_decide_unpack _). by vm_compute.
Defined.

(** After a read of the key of table 7, the key of field 7 goes instead. *)
Lemma read_key_survives_eviction_witness :
  accessOrder
    (set 4 4 (key_of "row" 9) true (get 4 (key_of "table" 7) sample).2)
  = ["1:2:field:8:read"; "1:2:table:7:read"; "1:2:row:9:read"].
Proof.
  apply (read_key_survives_eviction sample (key_of "table" 7)
           (key_of "row" 9) true 4 4 4
           "1:2:field:7:read" ["1:2:field:8:read"]).
  - apply sample_inv.
  - reflexivity.
  - apply sample_fresh. lia.
  - apply sample_fresh. lia.
  - reflexivity.
  - apply (bool_decide_unpack _). by vm_compute.
Defined.

Lemma set_leaves_other_keys_witness :
  (get 50 (key_of "table" 7) (set 40 40 (key_of "row" 9) true one_entry)).1
  = (get 50 (key_of "table" 7) one_entry).1.
Proof.
  apply (set_leaves_other_keys one_entry (key_of "row" 9) (key_of "table" 7)
           true 40 40 50).
  - apply set_inv, constructor_inv.
  - by vm_compute.
  - lia.
  - discriminate.
Defined.

Lemma invalidate_by_workspace_or_user_witness :
  cache (invalidateByUser 2 sample) = []
  ∧ cache (invalidateByUser 3 sample) = cache sample
  ∧ bool_decide (p_userId (_parseKey (_generateKey (key_of "field" 7)))
                 = Int 2) = true.
Proof.
  split; [| split].
  - destruct (invalidate_by_workspace_or_user 2 sample p_userId userId
                invalidateByUser eq_refl sample_inv) as (_ & Hcache & _).
    + right. repeat split.
    + rewrite Hcache. reflexivity.
  - destruct (invalidate_by_workspace_or_user 3 sample p_userId userId
                invalidateByUser eq_refl sample_inv) as (_ & Hcache & _).
    + right. repeat split.
    + rewrite Hcache. reflexivity.
  - destruct (invalidate_by_workspace_or_user 2 sample p_userId userId
                invalidateByUser eq_refl sample_inv) as (Hkey & _).
    + right. repeat split.
    + apply (Hkey (key_of "field" 7)); [by repeat split | reflexivity].
Defined.

Lemma invalidate_by_object_witness :
  keys (cache (invalidateByTable 7 sample))
  = ["1:2:field:7:read"; "1:2:field:8:read"]
  ∧ targets "table" 7 (_generateKey (key_of "table" 7)) = true.
Proof.
  destruct (invalidate_by_object 7 0 sample "table" (invalidateByTable 7)
              eq_refl sample_inv) as (Hkey & Hcache & _).
  - right. left. split; reflexivity.
  - split; [rewrite Hcache; reflexivity |].
    apply (Hkey (key_of "table" 7)); [by repeat split | by split].
Defined.

Lemma invalidate_where_commute_witness :
  invalidateByUser 2 (invalidateByField 7 sample)
  = invalidateByField 7 (invalidateByUser 2 sample).
Proof.
  apply (invalidate_where_commute
           (λ key, bool_decide (p_userId (_parseKey key) = Int 2%Z))
           (targets_field 7) sample sample_inv).
Defined.

End ExtraWitnesses.

Module StoreWitnesses.
Import PluginPermissions PluginPermissionsExtras.

(** A level stored at time 10 is not served at time 10 or later. *)
Lemma fetchPermission_never_from_cache_witness :
  fetchPermission 10 (SET_PERMISSION 10 initial 1 "ai_assistant" "use") 1
    "ai_assistant" = from_server.
Proof.
  rewrite (fetchPermission_never_from_cache 10
             (SET_PERMISSION 10 initial 1 "ai_assistant" "use") 1
             "ai_assistant"); [reflexivity |].
  intros c Hc. vm_compute in Hc. injection Hc as <-. by vm_compute.
Defined.


End StoreWitnesses.

Module ServiceWitnesses.
Import Key PermissionCache CacheSamples CacheFacts.
Import FieldPermissionsService ServiceExtras.

(** Changing the level of user 3 on field 7 drops the entry of field 7
    and keeps the two others, which belong to user 2. *)
Lemma updatePermissionLevel_cache_witness :
  keys (cache (updatePermissionLevel [] 7 3 sample))
  = ["1:2:table:7:read"; "1:2:field:8:read"]
  ∧ map_get (_generateKey (key_of "field" 7))
      (cache (updatePermissionLevel [] 7 3 sample)) = None.
Proof.
  destruct (updatePermissionLevel_cache [] 7 3 sample eq_refl eq_refl
              sample_inv) as [Hsame Hkey]; [discriminate |].
  split; [rewrite Hsame; reflexivity |].
  rewrite (Hkey (key_of "field" 7)) by by repeat split.
  reflexivity.
Defined.

End ServiceWitnesses.
